(** * Decision stump (IMLearn/learners/classifiers/decision_stump.py)

    A shallow embedding of the [DecisionStump] classifier and the
    verification of its threshold search, its fitting loop and its
    prediction rule.

    Numbers: the program computes on numpy [float64] arrays.  Two
    embeddings of the threshold search are given.

    In the first a finite float is an exact rational ([Q]), and the two
    infinities the program produces itself ([np.inf], [-np.inf]) are added
    by the type [float64] below.  Every comparison the program makes is the
    corresponding comparison on [Q] and every sum, product and quotient is
    exact, so this embedding carries the structure of the program: which
    exception is raised, which index is selected among the entries of the
    loss array, which value is copied into the result, which candidate the
    fit keeps.  What is proved of the numbers themselves (the loss array as
    the error of a cut, the range of the returned error) is proved of exact
    arithmetic and is marked so.

    In the second ([binary64]) a float is a binary64 float with the IEEE
    754 operations, so that a run of the program can be replayed bit for
    bit; it shows where rounding makes the program leave what exact
    arithmetic gives. *)

From Stdlib Require Import QArith Qabs ZArith List Bool Lia Lqa.
From Stdlib Require Import Permutation Sorting.Sorted.
From Stdlib Require Import PrimFloat SpecFloat FloatOps.
Import ListNotations.

Set Implicit Arguments.

(** ** Python exceptions and results *)

Inductive exn : Set := IndexError | ValueError | TypeError.

Inductive result (A : Type) : Type :=
| Ok (a : A)
| Raise (e : exn).

Arguments Ok {A} a.
Arguments Raise {A} e.

Definition bind {A B : Type} (r : result A) (k : A -> result B) : result B :=
  match r with
  | Ok a => k a
  | Raise e => Raise e
  end.

Notation "x <- r ;; k" := (bind r (fun x => k))
  (at level 61, r at next level, right associativity).

(** ** Floats with infinities *)

Inductive float64 : Set :=
| NegInf
| Fin (q : Q)
| PosInf.

(** [a < b] and [a >= b] on floats. *)
Definition Qltb (a b : Q) : bool := negb (Qle_bool b a).

Definition flt (a b : float64) : bool :=
  match a, b with
  | _, NegInf => false
  | NegInf, _ => true
  | PosInf, _ => false
  | Fin _, PosInf => true
  | Fin x, Fin y => Qltb x y
  end.

Definition fge (a b : float64) : bool := negb (flt a b).

(** ** The numpy operations the program uses, on 1-D arrays as lists *)

Module np.

Definition sum (a : list Q) : Q := fold_right Qplus 0%Q a.

Definition abs (a : list Q) : list Q := map Qabs a.

Definition zeros_like (a : list Q) : list Q := map (fun _ => 0%Q) a.

(** [np.where(cond, x, y)] with the condition given per element. *)
Definition where_ {A B : Type} (cond : A -> bool) (x y : A -> B)
    (a : list A) : list B :=
  map (fun e => if cond e then x e else y e) a.

(** [np.max] of a non-empty array. *)
Definition max (a : list Q) : Q :=
  match a with
  | [] => 0%Q
  | x :: r => fold_left (fun m e => if Qltb m e then e else m) r x
  end.

(** [np.argmin]: the index of the first occurrence of the minimum. *)
Fixpoint argmin_from (best_i : nat) (best : Q) (i : nat) (a : list Q)
    : nat :=
  match a with
  | [] => best_i
  | x :: r =>
      if Qltb x best then argmin_from i x (S i) r
      else argmin_from best_i best (S i) r
  end.

Definition argmin (a : list Q) : nat :=
  match a with
  | [] => 0%nat
  | x :: r => argmin_from 0 x 1 r
  end.

(** [np.c_[a, b]] for two 1-D arrays: the rows [(a[i], b[i])]; arrays of
    different lengths cannot be concatenated. *)
Definition c_ (a b : list Q) : result (list (Q * Q)) :=
  if (length a =? length b)%nat then Ok (combine a b) else Raise ValueError.

(** [keys.argsort()]: the indices of [keys] in ascending order of key.
    numpy's default sort promises no order among equal keys; here they keep
    their input order (insertion).  The general results below use only
    that the rows come out as a sorted permutation ([sorted_rows_ok]). *)
Fixpoint insert_index (keys : list Q) (i : nat) (sorted : list nat)
    : list nat :=
  match sorted with
  | [] => [i]
  | j :: r =>
      if Qltb (nth i keys 0%Q) (nth j keys 0%Q) then i :: j :: r
      else j :: insert_index keys i r
  end.

Definition argsort (keys : list Q) : list nat :=
  fold_left (fun sorted i => insert_index keys i sorted)
            (seq 0 (length keys)) [].

(** [a[idx]] for an index array [idx] (rows of a 2-column matrix). *)
Definition take (a : list (Q * Q)) (idx : list nat) : list (Q * Q) :=
  map (fun i => nth i a (0%Q, 0%Q)) idx.

(** [a[i] = x] on a 1-D array; [setitem] raises where numpy does, and
    [upd], for the writes of the loop that are in range by construction,
    leaves the array alone out of range. *)
Fixpoint upd (i : nat) (x : Q) (a : list Q) : list Q :=
  match a, i with
  | [], _ => []
  | _ :: r, O => x :: r
  | y :: r, S i' => y :: upd i' x r
  end.

Definition setitem (a : list Q) (i : nat) (x : Q) : result (list Q) :=
  if (i <? length a)%nat then Ok (upd i x a) else Raise IndexError.

(** [a[mask != 1] = x]. *)
Definition assign_where_not_one (a mask : list Q) (x : Q) : list Q :=
  map (fun p => if negb (Qeq_bool (snd p) 1) then x else fst p)
      (combine a mask).

End np.

(** ** ThresholdFinder: [_find_threshold], with exact numbers *)

Section FindThreshold.

Variable sign : Z.

(** Lines 117-121: pair, sort by value, normalise the labels. *)
Definition sorted_rows (values labels : list Q) : result (list (Q * Q)) :=
  vl <- np.c_ values labels ;;
  Ok (np.take vl (np.argsort (map fst vl))).

Definition normalise (labels : list Q) : list Q :=
  let sum_of_labels := np.sum (np.abs labels) in
  map (fun l => l / sum_of_labels)%Q labels.

(** Line 125: the loss of the split that sends every sample to [sign]. *)
Definition loss0 (labels : list Q) : Q :=
  Qabs (np.sum (np.where_ (fun l => Qltb (l * inject_Z sign) 0)
                         (fun l => l) (fun _ => 0%Q) labels)).

(** Lines 128-131: one iteration of the sweep, on the pair of arrays
    [(loss, is_first_time)]. *)
Definition sweep_body (values labels : list Q)
    (st : list Q * list Q) (i : nat) : list Q * list Q :=
  let '(loss, is_first_time) := st in
  let is_first_time :=
    if negb (Qeq_bool (nth (i - 1) values 0%Q) (nth i values 0%Q))
    then np.upd i 1%Q is_first_time
    else is_first_time in
  let loss :=
    np.upd i (nth (i - 1) loss 0 + nth (i - 1) labels 0 * inject_Z sign)%Q
           loss in
  (loss, is_first_time).

(** Lines 123-131: both arrays after the loop. *)
Definition sweep (values labels : list Q) : result (list Q * list Q) :=
  let loss := np.zeros_like values in
  let is_first_time := np.zeros_like values in
  loss <- np.setitem loss 0 (loss0 labels) ;;
  is_first_time <- np.setitem is_first_time 0 1%Q ;;
  Ok (fold_left (sweep_body values labels)
                (seq 1 (length labels - 1)) (loss, is_first_time)).

(** Lines 132-133: positions inside a run of equal values get the
    sentinel. *)
Definition mask_ties (loss is_first_time : list Q) : list Q :=
  let maxi := (np.max loss + 1)%Q in
  np.assign_where_not_one loss is_first_time maxi.

(** Lines 135-156: from the selected index to the returned pair. *)
Definition select (values labels loss : list Q) (index : nat)
    : float64 * Q :=
  if (index =? 0)%nat then
    (NegInf, nth 0 loss 0%Q)
  else if (index =? length labels - 1)%nat then
    if (sign =? 1)%Z then
      if Qltb 0 (nth index labels 0%Q) then
        (Fin (nth index values 0%Q), nth index loss 0%Q)
      else
        (PosInf, (nth index loss 0 + nth index labels 0)%Q)
    else
      if Qltb 0 (nth index labels 0%Q) then
        (PosInf, (nth index loss 0 - nth index labels 0)%Q)
      else
        (Fin (nth index values 0%Q), nth index loss 0%Q)
  else
    (Fin (nth index values 0%Q), nth index loss 0%Q).

(** The masked loss array on which [np.argmin] runs, with the sorted
    values and the normalised labels it was computed from. *)
Definition masked_loss (values labels : list Q)
    : result (list Q * list Q * list Q) :=
  vl <- sorted_rows values labels ;;
  let values := map fst vl in
  let labels := normalise (map snd vl) in
  st <- sweep values labels ;;
  Ok (values, labels, mask_ties (fst st) (snd st)).

(** Lines 86-156. *)
Definition _find_threshold (values labels : list Q)
    : result (float64 * Q) :=
  r <- masked_loss values labels ;;
  let '(values, labels, loss) := r in
  let index := np.argmin loss in
  Ok (select values labels loss index).

End FindThreshold.

(** ** StumpModel: the fitted parameters, [_fit] and [_predict] *)

(** The arrays [_fit] and [_predict] receive: a 1-D array, or a 2-D array
    with [shape[1]] columns given by its rows. *)
Inductive ndarray : Type :=
| Arr1 (a : list Q)
| Arr2 (ncols : nat) (rows : list (list Q)).

(** [X[:, i]] on the rows of a 2-D array. *)
Definition column (rows : list (list Q)) (i : nat) : list Q :=
  map (fun r => nth i r 0%Q) rows.

(** [X[:, j]]: a 1-D array has no second axis to index. *)
Definition getcol (X : ndarray) (j : nat) : result (list Q) :=
  match X with
  | Arr1 _ => Raise IndexError
  | Arr2 ncols rows =>
      if (j <? ncols)%nat then Ok (column rows j) else Raise IndexError
  end.

Record DecisionStump : Type := mkStump {
  threshold_ : option float64;
  j_ : option nat;
  sign_ : option Z
}.

(** Line 29. *)
Definition __init__ : DecisionStump := mkStump None None None.

(** The running best of [_fit]:
    [(best_feature, best_threshold, best_loss, best_sign)]. *)
Definition best_t : Type := (nat * option float64 * float64 * Z)%type.

(** Line 43. *)
Definition best_init : best_t := (0%nat, None, PosInf, 1%Z).

(** A [for] loop whose body may raise. *)
Fixpoint for_each {A S : Type} (l : list A) (body : S -> A -> result S)
    (s : S) : result S :=
  match l with
  | [] => Ok s
  | a :: r => s' <- body s a ;; for_each r body s'
  end.

(** Lines 46-49 and 54-57: one (feature, sign) candidate. *)
Definition try_candidate (cur_vec y : list Q) (i : nat) (best : best_t)
    (sign : Z) : result best_t :=
  r <- _find_threshold sign cur_vec y ;;
  let '(threshold, loss) := r in
  let '(_, _, best_loss, _) := best in
  if flt (Fin loss) best_loss then Ok (i, Some threshold, Fin loss, sign)
  else Ok best.

(** Lines 43-57: the search; [Arr1] is the branch [X.ndim == 1]. *)
Definition fit_search (X : ndarray) (y : list Q) : result best_t :=
  match X with
  | Arr1 v =>
      for_each [(-1)%Z; 1%Z] (try_candidate v y 0) best_init
  | Arr2 ncols rows =>
      for_each (seq 0 ncols)
        (fun best i =>
           let cur_vec := column rows i in
           for_each [(-1)%Z; 1%Z] (try_candidate cur_vec y i) best)
        best_init
  end.

(** Lines 31-59: the model after [fit]. *)
Definition _fit (self : DecisionStump) (X : ndarray) (y : list Q)
    : result DecisionStump :=
  best <- fit_search X y ;;
  let '(best_feature, best_threshold, _, best_sign) := best in
  Ok (mkStump best_threshold (Some best_feature) (Some best_sign)).

(** [X[:, None]]: the index [None] is [np.newaxis], so nothing is selected
    and every entry of [X] is kept, under a shape with one more axis. *)
Definition entries (X : ndarray) : list Q :=
  match X with
  | Arr1 a => a
  | Arr2 ncols rows =>
      flat_map (fun r => map (fun i => nth i r 0%Q) (seq 0 ncols)) rows
  end.

(** Lines 83-84, in the order Python evaluates them: the index
    [X[:, self.j_]], the comparison with [self.threshold_], then [self.sign_]
    and [-self.sign_], then [np.where].  A feature index on a 1-D array or
    past the last column raises [IndexError].  numpy compares element by
    element, so a threshold still [None] raises [TypeError] at the first
    element, and an array without elements compares to an empty array.
    [-None] raises [TypeError].  The result lists the entries of the array
    returned: with a feature index, one response per row. *)
Definition _predict (self : DecisionStump) (X : ndarray) : result (list Z) :=
  col <- match j_ self with
         | Some j => getcol X j
         | None => Ok (entries X)
         end ;;
  match threshold_ self, sign_ self with
  | Some threshold, Some sign =>
      Ok (np.where_ (fun v => fge (Fin v) threshold)
                    (fun _ => sign) (fun _ => (- sign)%Z) col)
  | None, Some _ =>
      match col with
      | [] => Ok []
      | _ :: _ => Raise TypeError
      end
  | _, None => Raise TypeError
  end.

(** ** The rule the search is meant to optimise

    The weighted misclassification fraction of the stump
    "value >= threshold -> sign, else -sign": a sample counts, with weight
    [|label|], when its label and its predicted sign disagree. *)

Definition predict_value (threshold : float64) (sign : Z) (v : Q) : Z :=
  if fge (Fin v) threshold then sign else (- sign)%Z.

Definition misclassified (pred : Z) (l : Q) : Q :=
  if Qltb (l * inject_Z pred) 0 then Qabs l else 0%Q.

Definition weighted_error (threshold : float64) (sign : Z)
    (values labels : list Q) : Q :=
  (np.sum (map (fun p => misclassified (predict_value threshold sign (fst p))
                                       (snd p))
               (combine values labels))
   / np.sum (np.abs labels))%Q.

(** ** The threshold search on binary64 floats

    The same lines of [_find_threshold], with every number a binary64
    float and every operation the IEEE 754 one (round to nearest even), as
    numpy computes on [float64] arrays.  [np.sum] adds from left to right,
    which is numpy's order for arrays of fewer than eight entries; from
    eight entries on numpy adds in blocks, and the order below is then only
    one possible order.  NaN is ordered as numpy orders it: last by
    [argsort], and taken by [np.max] and [np.argmin] where it occurs. *)

Module binary64.

(** A Python [int] as a float. *)
Definition of_int (z : Z) : float :=
  SF2Prim (binary_normalize prec emax z 0 false).

Definition isnan (x : float) : bool := negb (PrimFloat.eqb x x).

Module np.

Definition sum (a : list float) : float :=
  fold_left PrimFloat.add a 0%float.

Definition abs (a : list float) : list float := map PrimFloat.abs a.

Definition zeros_like (a : list float) : list float :=
  map (fun _ => 0%float) a.

Definition max (a : list float) : float :=
  match a with
  | [] => 0%float
  | x :: r =>
      fold_left (fun m e => if PrimFloat.leb e m || isnan m then m else e)
                r x
  end.

Fixpoint argmin_from (best_i : nat) (best : float) (i : nat)
    (a : list float) : nat :=
  match a with
  | [] => best_i
  | x :: r =>
      if PrimFloat.leb best x then argmin_from best_i best (S i) r
      else if isnan x then i
      else argmin_from i x (S i) r
  end.

Definition argmin (a : list float) : nat :=
  match a with
  | [] => 0%nat
  | x :: r => if isnan x then 0%nat else argmin_from 0 x 1 r
  end.

Definition c_ (a b : list float) : result (list (float * float)) :=
  if (length a =? length b)%nat then Ok (combine a b) else Raise ValueError.

(** The order of the sort: NaN after every number. *)
Definition lt (a b : float) : bool :=
  PrimFloat.ltb a b || (isnan b && negb (isnan a)).

Fixpoint insert_index (keys : list float) (i : nat) (sorted : list nat)
    : list nat :=
  match sorted with
  | [] => [i]
  | j :: r =>
      if lt (nth i keys 0%float) (nth j keys 0%float) then i :: j :: r
      else j :: insert_index keys i r
  end.

Definition argsort (keys : list float) : list nat :=
  fold_left (fun sorted i => insert_index keys i sorted)
            (seq 0 (length keys)) [].

Definition take (a : list (float * float)) (idx : list nat)
    : list (float * float) :=
  map (fun i => nth i a (0%float, 0%float)) idx.

Fixpoint upd (i : nat) (x : float) (a : list float) : list float :=
  match a, i with
  | [], _ => []
  | _ :: r, O => x :: r
  | y :: r, S i' => y :: upd i' x r
  end.

Definition setitem (a : list float) (i : nat) (x : float)
    : result (list float) :=
  if (i <? length a)%nat then Ok (upd i x a) else Raise IndexError.

Definition assign_where_not_one (a mask : list float) (x : float)
    : list float :=
  map (fun p => if negb (PrimFloat.eqb (snd p) 1) then x else fst p)
      (combine a mask).

End np.

Section FindThreshold.

Variable sign : Z.

(** Lines 117-119. *)
Definition sorted_rows (values labels : list float)
    : result (list (float * float)) :=
  vl <- np.c_ values labels ;;
  Ok (np.take vl (np.argsort (map fst vl))).

(** Lines 120-121. *)
Definition normalise (labels : list float) : list float :=
  let sum_of_labels := np.sum (np.abs labels) in
  map (fun l => l / sum_of_labels)%float labels.

(** Line 125. *)
Definition loss0 (labels : list float) : float :=
  PrimFloat.abs
    (np.sum (map (fun l => if PrimFloat.ltb (l * of_int sign) 0
                           then l else 0%float) labels)).

(** Lines 128-131. *)
Definition sweep_body (values labels : list float)
    (st : list float * list float) (i : nat) : list float * list float :=
  let '(loss, is_first_time) := st in
  let is_first_time :=
    if negb (PrimFloat.eqb (nth (i - 1) values 0%float)
                           (nth i values 0%float))
    then np.upd i 1%float is_first_time
    else is_first_time in
  let loss :=
    np.upd i (nth (i - 1) loss 0 + nth (i - 1) labels 0 * of_int sign)%float
           loss in
  (loss, is_first_time).

(** Lines 123-131. *)
Definition sweep (values labels : list float)
    : result (list float * list float) :=
  let loss := np.zeros_like values in
  let is_first_time := np.zeros_like values in
  loss <- np.setitem loss 0 (loss0 labels) ;;
  is_first_time <- np.setitem is_first_time 0 1%float ;;
  Ok (fold_left (sweep_body values labels)
                (seq 1 (length labels - 1)) (loss, is_first_time)).

(** Lines 132-133. *)
Definition mask_ties (loss is_first_time : list float) : list float :=
  let maxi := (np.max loss + 1)%float in
  np.assign_where_not_one loss is_first_time maxi.

(** Lines 135-156. *)
Definition select (values labels loss : list float) (index : nat)
    : float * float :=
  if (index =? 0)%nat then
    (neg_infinity, nth 0 loss 0%float)
  else if (index =? length labels - 1)%nat then
    if (sign =? 1)%Z then
      if PrimFloat.ltb 0 (nth index labels 0%float) then
        (nth index values 0%float, nth index loss 0%float)
      else
        (infinity, (nth index loss 0 + nth index labels 0)%float)
    else
      if PrimFloat.ltb 0 (nth index labels 0%float) then
        (infinity, (nth index loss 0 - nth index labels 0)%float)
      else
        (nth index values 0%float, nth index loss 0%float)
  else
    (nth index values 0%float, nth index loss 0%float).

(** Lines 86-156. *)
Definition _find_threshold (values labels : list float)
    : result (float * float) :=
  vl <- sorted_rows values labels ;;
  let values := map fst vl in
  let labels := normalise (map snd vl) in
  st <- sweep values labels ;;
  let loss := mask_ties (fst st) (snd st) in
  let index := np.argmin loss in
  Ok (select values labels loss index).

End FindThreshold.

End binary64.

(** * Vocabulary of the statements *)

(** [k] is a valid index of [a], of the first minimal element: what
    [np.argmin] returns. *)
Definition is_first_min (a : list Q) (k : nat) : Prop :=
  (k < length a)%nat /\
  (forall j, (j < length a)%nat -> (nth k a 0 <= nth j a 0)%Q) /\
  (forall j, (j < k)%nat -> (nth k a 0 < nth j a 0)%Q).

(** The order [argsort] puts the indices in. *)
Definition key_le (keys : list Q) (i j : nat) : Prop :=
  (nth i keys 0 <= nth j keys 0)%Q.

(** The state of the loop of lines 128-131 once iterations [1..k] are
    done. *)
Definition sweep_inv (sign : Z) (values labels : list Q) (k : nat)
    (st : list Q * list Q) : Prop :=
  length (fst st) = length values /\
  length (snd st) = length values /\
  nth 0 (fst st) 0%Q = loss0 sign labels /\
  nth 0 (snd st) 0%Q = 1%Q /\
  (forall i, (1 <= i <= k)%nat ->
     nth i (fst st) 0%Q
     = (nth (i - 1) (fst st) 0
        + nth (i - 1) labels 0 * inject_Z sign)%Q) /\
  (forall i, (1 <= i <= k)%nat ->
     nth i (snd st) 0%Q
     = if negb (Qeq_bool (nth (i - 1) values 0%Q) (nth i values 0%Q))
       then 1%Q else 0%Q) /\
  (forall i, (k < i)%nat -> nth i (snd st) 0%Q = 0%Q).

(** The weight misclassified when the first [i] samples of the sorted
    order are sent to [-sign] and the others to [sign]. *)
Definition cut_error (sign : Z) (i : nat) (labels : list Q) : Q :=
  (np.sum (map (misclassified (- sign)) (firstn i labels))
   + np.sum (map (misclassified sign) (skipn i labels)))%Q.

Definition is_sign (sign : Z) : Prop := sign = 1%Z \/ sign = (-1)%Z.

(** An index of the sorted order that starts a run of equal values. *)
Definition first_time (svalues : list Q) (i : nat) : Prop :=
  i = 0%nat \/
  ((1 <= i)%nat /\ ~ (nth (i - 1) svalues 0 == nth i svalues 0)%Q).

(** The well-formed inputs of [_find_threshold]: arrays of one length
    [n >= 1] whose labels carry some weight, and a sign in [{-1, +1}]. *)
Definition valid_input (sign : Z) (values labels : list Q) : Prop :=
  length values = length labels /\ values <> [] /\
  (0 < np.sum (np.abs labels))%Q /\ is_sign sign.

(** All the intermediate arrays of a run, with what the loop leaves in
    them. *)
Record run (sign : Z) (values labels : list Q)
    (svalues slabels loss is_first_time masked : list Q) : Prop := {
  run_valid : valid_input sign values labels;
  run_values : Permutation svalues values;
  run_rows : exists vl, Permutation vl (combine values labels) /\
                        svalues = map fst vl /\
                        slabels = normalise (map snd vl);
  run_sorted : forall a b, (a <= b)%nat -> (b < length values)%nat ->
                           (nth a svalues 0 <= nth b svalues 0)%Q;
  run_length_values : length svalues = length values;
  run_length_labels : length slabels = length values;
  run_sweep : sweep_inv sign svalues slabels (length values - 1)
                        (loss, is_first_time);
  run_sweep_ok : sweep sign svalues slabels = Ok (loss, is_first_time);
  run_masked : masked = mask_ties loss is_first_time;
  run_masked_loss :
    masked_loss sign values labels = Ok (svalues, slabels, masked);
  run_result :
    _find_threshold sign values labels
    = Ok (select sign svalues slabels masked (np.argmin masked))
}.

(** The rule of lines 138-152 for the last position.  The selected index
    is the last one, and it is not index 0, which line 135 answers first;
    [acc] is the loss accumulated at that index, and the weight of the last
    sample is the absolute value of its normalised label.  When the last
    label agrees with the sign (positive for sign [+1], negative for sign
    [-1]) the pair returned is the last value with [acc] unchanged; when it
    disagrees, it is [+inf] with the error [adjust acc weight].  The claim's
    words "adds the weight back into the error" are [adjust := Qplus]. *)
Definition last_index_rule (adjust : Q -> Q -> Q) (sign : Z)
    (values labels : list Q) : Prop :=
  forall svalues slabels masked,
    masked_loss sign values labels = Ok (svalues, slabels, masked) ->
    let index := np.argmin masked in
    let last_value := nth index svalues 0%Q in
    let last_label := nth index slabels 0%Q in
    let acc := nth index masked 0%Q in
    index = (length values - 1)%nat -> index <> 0%nat ->
    (sign = 1%Z ->
       ((0 < last_label)%Q ->
          _find_threshold sign values labels = Ok (Fin last_value, acc)) /\
       ((last_label < 0)%Q ->
          exists err,
            _find_threshold sign values labels = Ok (PosInf, err) /\
            (err == adjust acc (Qabs last_label))%Q)) /\
    (sign = (-1)%Z ->
       ((last_label < 0)%Q ->
          _find_threshold sign values labels = Ok (Fin last_value, acc)) /\
       ((0 < last_label)%Q ->
          exists err,
            _find_threshold sign values labels = Ok (PosInf, err) /\
            (err == adjust acc (Qabs last_label))%Q)).

(** [v >= threshold], for a finite [v]. *)
Definition reaches (v : Q) (threshold : float64) : Prop :=
  match threshold with
  | NegInf => True
  | Fin t => (t <= v)%Q
  | PosInf => False
  end.

(** The model a fit leaves behind: all three parameters set. *)
Definition fitted (self : DecisionStump) (j : nat) (threshold : float64)
    (sign : Z) : Prop :=
  self = mkStump (Some threshold) (Some j) (Some sign).

Definition n_features (X : ndarray) : nat :=
  match X with
  | Arr1 _ => 1
  | Arr2 ncols _ => ncols
  end.

(** The feature vector [_fit] passes to [_find_threshold] for index [j]. *)
Definition feature (X : ndarray) (j : nat) : list Q :=
  match X with
  | Arr1 a => a
  | Arr2 _ rows => column rows j
  end.

(** The well-formed inputs of [_fit]: [n >= 1] samples with some label
    weight, and either a vector of [n] values or [n] rows of [d >= 1]
    columns. *)
Definition valid_fit_input (X : ndarray) (y : list Q) : Prop :=
  y <> [] /\ (0 < np.sum (np.abs y))%Q /\
  match X with
  | Arr1 a => length a = length y
  | Arr2 ncols rows =>
      (1 <= ncols)%nat /\ length rows = length y /\
      Forall (fun r => length r = ncols) rows
  end.

(** The (feature, sign) pairs in the order [_fit] tries them. *)
Definition candidates (features : list nat) : list (nat * Z) :=
  flat_map (fun i => [(i, (-1)%Z); (i, 1%Z)]) features.

(** [best] is the running best once the candidates [C] were tried on the
    feature vectors [col]: untouched when nothing was tried, else a tried
    candidate whose error no tried candidate beats. *)
Definition seen_min (col : nat -> list Q) (y : list Q)
    (C : list (nat * Z)) (best : best_t) : Prop :=
  (C = [] /\ best = best_init) \/
  exists i s thr err,
    best = (i, Some thr, Fin err, s) /\ In (i, s) C /\
    _find_threshold s (col i) y = Ok (thr, err) /\
    forall i' s', In (i', s') C ->
      exists thr' err',
        _find_threshold s' (col i') y = Ok (thr', err') /\ (err <= err')%Q.

(** The number of leading values that do not reach the threshold. *)
Fixpoint below_count (threshold : float64) (l : list Q) : nat :=
  match l with
  | [] => 0
  | v :: r => if fge (Fin v) threshold then 0 else S (below_count threshold r)
  end.

(** [_find_threshold] returns on feature [i], for both signs. *)
Definition total_at (col : nat -> list Q) (y : list Q) (i : nat) : Prop :=
  forall s, is_sign s -> exists r, _find_threshold s (col i) y = Ok r.

(** The number of samples of an input array. *)
Definition n_samples (X : ndarray) : nat :=
  match X with
  | Arr1 a => length a
  | Arr2 _ rows => length rows
  end.

(** The running best once the candidates [C] were tried, with the order
    they were tried in: the best is a tried candidate, every candidate
    tried before it has a strictly larger error, and none tried after it
    has a smaller one. *)
Definition seen_first_min (col : nat -> list Q) (y : list Q)
    (C : list (nat * Z)) (best : best_t) : Prop :=
  (C = [] /\ best = best_init) \/
  exists i s thr err before after,
    best = (i, Some thr, Fin err, s) /\
    C = before ++ (i, s) :: after /\
    _find_threshold s (col i) y = Ok (thr, err) /\
    (forall i' s', In (i', s') before ->
       exists thr' err',
         _find_threshold s' (col i') y = Ok (thr', err') /\
         (err < err')%Q) /\
    (forall i' s', In (i', s') after ->
       exists thr' err',
         _find_threshold s' (col i') y = Ok (thr', err') /\
         (err <= err')%Q).

(** * Verification *)

(** ** Comparisons *)

Lemma Qltb_lt (a b : Q) : Qltb a b = true <-> (a < b)%Q.
Proof.
  unfold Qltb. rewrite negb_true_iff.
  split; intro H.
  - apply Qnot_le_lt. intro Hle. apply Qle_bool_iff in Hle. congruence.
  - destruct (Qle_bool b a) eqn:E; [|reflexivity].
    apply Qle_bool_iff in E. exfalso. exact (Qlt_not_le _ _ H E).
Qed.

Lemma Qltb_ge (a b : Q) : Qltb a b = false <-> (b <= a)%Q.
Proof.
  unfold Qltb. rewrite negb_false_iff. apply Qle_bool_iff.
Qed.

Lemma Qeq_bool_false (a b : Q) : Qeq_bool a b = false <-> ~ (a == b)%Q.
Proof.
  split.
  - intros H E. apply Qeq_bool_iff in E. congruence.
  - intro H. destruct (Qeq_bool a b) eqn:E; [|reflexivity].
    apply Qeq_bool_iff in E. contradiction.
Qed.

Ltac qcases :=
  repeat match goal with
  | |- context [Qltb ?a ?b] =>
      let E := fresh "E" in
      destruct (Qltb a b) eqn:E;
      [apply Qltb_lt in E | apply Qltb_ge in E]
  | H : context [Qltb ?a ?b] |- _ =>
      let E := fresh "E" in
      destruct (Qltb a b) eqn:E;
      [apply Qltb_lt in E | apply Qltb_ge in E]
  end.

(** ** Arrays *)

Module npfacts.

Lemma upd_length i x a : length (np.upd i x a) = length a.
Proof.
  revert i. induction a as [|y r IH]; intros [|i]; simpl; auto.
Qed.

Lemma nth_upd_same i x a d :
  (i < length a)%nat -> nth i (np.upd i x a) d = x.
Proof.
  revert i. induction a as [|y r IH]; intros [|i]; simpl; intro H;
    try lia; auto.
  apply IH. lia.
Qed.

Lemma nth_upd_other i j x a d :
  i <> j -> nth j (np.upd i x a) d = nth j a d.
Proof.
  revert i j. induction a as [|y r IH]; intros [|i] [|j]; simpl; intro H;
    try congruence; auto.
Qed.

Lemma zeros_like_length a : length (np.zeros_like a) = length a.
Proof. apply length_map. Qed.

Lemma nth_zeros_like a i : nth i (np.zeros_like a) 0%Q = 0%Q.
Proof.
  unfold np.zeros_like. revert i.
  induction a as [|x r IH]; intros [|i]; simpl; auto.
Qed.

Lemma sum_app a b : (np.sum (a ++ b) == np.sum a + np.sum b)%Q.
Proof.
  induction a as [|x r IH]; simpl.
  - ring.
  - rewrite IH. ring.
Qed.

Lemma sum_perm a b : Permutation a b -> (np.sum a == np.sum b)%Q.
Proof.
  induction 1; simpl.
  - reflexivity.
  - rewrite IHPermutation. reflexivity.
  - ring.
  - etransitivity; eassumption.
Qed.

(** [np.max] bounds every element. *)
Lemma max_fold_ge r : forall m,
  (m <= fold_left (fun m e => if Qltb m e then e else m) r m)%Q /\
  forall x, In x r ->
    (x <= fold_left (fun m e => if Qltb m e then e else m) r m)%Q.
Proof.
  induction r as [|e r IH]; intro m; simpl.
  - split; [apply Qle_refl | tauto].
  - destruct (IH (if Qltb m e then e else m)) as [Hm Hin].
    split.
    + qcases; lra.
    + intros x [<-|Hx]; [|auto].
      qcases; lra.
Qed.

Lemma max_ge a x : In x a -> (x <= np.max a)%Q.
Proof.
  destruct a as [|y r]; simpl; [tauto|].
  destruct (max_fold_ge r y) as [Hm Hin].
  intros [<-|Hx]; auto.
Qed.

Lemma argmin_from_spec r : forall pre bi,
  (bi < length pre)%nat ->
  (forall j, (j < length pre)%nat -> (nth bi pre 0 <= nth j pre 0)%Q) ->
  (forall j, (j < bi)%nat -> (nth bi pre 0 < nth j pre 0)%Q) ->
  is_first_min (pre ++ r)
    (np.argmin_from bi (nth bi pre 0%Q) (length pre) r).
Proof.
  induction r as [|x r IH]; intros pre bi Hbi Hmin Hfirst; simpl.
  - rewrite app_nil_r. repeat split; auto.
  - assert (Hlen : length (pre ++ [x]) = S (length pre))
      by (rewrite length_app; simpl; lia).
    assert (Hx : nth (length pre) (pre ++ [x]) 0%Q = x)
      by (rewrite app_nth2, Nat.sub_diag; auto).
    replace (pre ++ x :: r) with ((pre ++ [x]) ++ r)
      by (rewrite <- app_assoc; reflexivity).
    destruct (Qltb x (nth bi pre 0%Q)) eqn:E.
    + apply Qltb_lt in E.
      pose proof (IH (pre ++ [x]) (length pre)) as H.
      rewrite Hlen, Hx in H. apply H; try lia.
      * intros j Hj. destruct (Nat.eq_dec j (length pre)) as [->|Hne].
        -- rewrite Hx. apply Qle_refl.
        -- rewrite app_nth1 by lia.
           specialize (Hmin j ltac:(lia)). lra.
      * intros j Hj. rewrite app_nth1 by lia.
        specialize (Hmin j ltac:(lia)). lra.
    + apply Qltb_ge in E.
      pose proof (IH (pre ++ [x]) bi) as H.
      rewrite Hlen, (app_nth1 pre [x] 0%Q Hbi) in H. apply H; try lia.
      * intros j Hj.
        destruct (Nat.eq_dec j (length pre)) as [->|Hne].
        -- rewrite Hx. exact E.
        -- rewrite app_nth1 by lia. apply Hmin. lia.
      * intros j Hj. rewrite app_nth1 by lia. auto.
Qed.

Lemma argmin_spec a : a <> [] -> is_first_min a (np.argmin a).
Proof.
  destruct a as [|x r]; [congruence|]. intros _.
  apply (argmin_from_spec r [x] (bi := 0)); simpl.
  - lia.
  - intros j Hj. replace j with 0%nat by lia. apply Qle_refl.
  - intros j Hj. lia.
Qed.

(** [argsort] permutes the indices, so indexing by it permutes the
    rows. *)
Lemma insert_index_perm keys i sorted :
  Permutation (np.insert_index keys i sorted) (i :: sorted).
Proof.
  induction sorted as [|j r IH]; simpl; auto.
  destruct (Qltb _ _); auto.
  rewrite IH. apply perm_swap.
Qed.

Lemma argsort_perm keys :
  Permutation (np.argsort keys) (seq 0 (length keys)).
Proof.
  unfold np.argsort.
  assert (H : forall l acc,
    Permutation
      (fold_left (fun sorted i => np.insert_index keys i sorted) l acc)
      (l ++ acc)).
  { induction l as [|i l IH]; intro acc; simpl; auto.
    rewrite IH, insert_index_perm. symmetry. apply Permutation_middle. }
  rewrite H, app_nil_r. reflexivity.
Qed.

Lemma take_all (a : list (Q * Q)) : np.take a (seq 0 (length a)) = a.
Proof.
  unfold np.take. induction a as [|x r IH]; simpl; auto.
  f_equal. rewrite <- seq_shift, map_map. exact IH.
Qed.

Lemma take_perm (a : list (Q * Q)) idx :
  Permutation idx (seq 0 (length a)) -> Permutation (np.take a idx) a.
Proof.
  intro H. rewrite <- (take_all a) at 2.
  unfold np.take. apply Permutation_map. exact H.
Qed.

Lemma insert_index_sorted keys i sorted :
  StronglySorted (key_le keys) sorted ->
  StronglySorted (key_le keys) (np.insert_index keys i sorted).
Proof.
  induction 1 as [|j r Hr IH Hj]; simpl.
  - repeat constructor.
  - destruct (Qltb _ _) eqn:E.
    + apply Qltb_lt in E. constructor; [constructor; assumption|].
      constructor; [unfold key_le; lra|].
      rewrite Forall_forall in Hj |- *. intros x Hx.
      specialize (Hj x Hx). unfold key_le in *. lra.
    + apply Qltb_ge in E. constructor; [exact IH|].
      apply (Permutation_Forall
               (Permutation_sym (insert_index_perm keys i r))).
      constructor; assumption.
Qed.

Lemma argsort_sorted keys : StronglySorted (key_le keys) (np.argsort keys).
Proof.
  unfold np.argsort.
  assert (H : forall l acc,
    StronglySorted (key_le keys) acc ->
    StronglySorted (key_le keys)
      (fold_left (fun sorted i => np.insert_index keys i sorted) l acc)).
  { induction l as [|i l IH]; intros acc Hacc; simpl; auto.
    apply IH, insert_index_sorted, Hacc. }
  apply H. constructor.
Qed.

Lemma take_sorted (a : list (Q * Q)) idx :
  StronglySorted (key_le (map fst a)) idx ->
  StronglySorted Qle (map fst (np.take a idx)).
Proof.
  assert (Hk : forall i, nth i (map fst a) 0%Q = fst (nth i a (0%Q, 0%Q)))
    by (intro i; apply (map_nth fst a (0%Q, 0%Q))).
  induction 1 as [|i r Hr IH Hi]; simpl; constructor; auto.
  unfold np.take. rewrite Forall_map, Forall_map.
  rewrite Forall_forall in Hi |- *. intros x Hx.
  specialize (Hi x Hx). unfold key_le in Hi. rewrite !Hk in Hi. exact Hi.
Qed.

Lemma sorted_nth l :
  StronglySorted Qle l ->
  forall a b, (a <= b)%nat -> (b < length l)%nat ->
    (nth a l 0 <= nth b l 0)%Q.
Proof.
  induction 1 as [|x r Hr IH Hx]; intros a b Hab Hb; simpl in *; [lia|].
  destruct a as [|a], b as [|b]; try lia.
  - apply Qle_refl.
  - rewrite Forall_forall in Hx. apply Hx, nth_In. lia.
  - apply IH; lia.
Qed.

End npfacts.

(** ** The sweep of [_find_threshold] *)

Section Sweep.

Variable sign : Z.
Variables values labels : list Q.

Lemma sweep_body_inv k st :
  (S k < length values)%nat ->
  sweep_inv sign values labels k st ->
  sweep_inv sign values labels (S k)
            (sweep_body sign values labels st (S k)).
Proof.
  destruct st as [loss ift].
  intros Hk (Hl1 & Hl2 & H0 & H1 & Hloss & Hift & Hrest).
  unfold sweep_inv, sweep_body in *; cbn [fst snd] in *.
  replace (S k - 1)%nat with k by lia.
  repeat split.
  - rewrite npfacts.upd_length. exact Hl1.
  - destruct (negb _); [rewrite npfacts.upd_length|]; exact Hl2.
  - rewrite npfacts.nth_upd_other by lia. exact H0.
  - destruct (negb _); [rewrite npfacts.nth_upd_other by lia|]; exact H1.
  - intros i Hi. destruct (Nat.eq_dec i (S k)) as [->|Hne].
    + rewrite npfacts.nth_upd_same by lia.
      rewrite npfacts.nth_upd_other by lia.
      replace (S k - 1)%nat with k by lia. reflexivity.
    + rewrite !npfacts.nth_upd_other by lia. apply Hloss. lia.
  - intros i Hi. destruct (Nat.eq_dec i (S k)) as [->|Hne].
    + replace (S k - 1)%nat with k by lia.
      destruct (negb _).
      * apply npfacts.nth_upd_same. lia.
      * apply Hrest. lia.
    + transitivity (nth i ift 0%Q); [|apply Hift; lia].
      destruct (negb (Qeq_bool (nth k values 0%Q) _)); auto.
      apply npfacts.nth_upd_other. lia.
  - intros i Hi.
    transitivity (nth i ift 0%Q); [|apply Hrest; lia].
    destruct (negb _); auto.
    apply npfacts.nth_upd_other. lia.
Qed.

Lemma sweep_fold_inv st0 : forall k,
  (k < length values)%nat ->
  sweep_inv sign values labels 0 st0 ->
  sweep_inv sign values labels k
            (fold_left (sweep_body sign values labels) (seq 1 k) st0).
Proof.
  induction k as [|k IH]; intros Hk H0; [exact H0|].
  rewrite seq_S, fold_left_app. cbn [fold_left Nat.add].
  apply sweep_body_inv; auto. apply IH; auto. lia.
Qed.

Hypothesis Hlen : length values = length labels.
Hypothesis Hne : values <> [].

Lemma sweep_ok :
  exists st, sweep sign values labels = Ok st /\
             sweep_inv sign values labels (length values - 1) st.
Proof.
  unfold sweep, np.setitem.
  rewrite npfacts.zeros_like_length.
  destruct values as [|v vs] eqn:Ev; [congruence|].
  rewrite <- Ev in *.
  assert (Hpos : (0 < length values)%nat) by (rewrite Ev; simpl; lia).
  apply Nat.ltb_lt in Hpos. rewrite Hpos. cbn [bind].
  eexists. split; [reflexivity|].
  rewrite <- Hlen. apply Nat.ltb_lt in Hpos.
  apply sweep_fold_inv; [lia|].
  unfold sweep_inv; cbn [fst snd].
  rewrite !npfacts.upd_length, !npfacts.zeros_like_length.
  rewrite !npfacts.nth_upd_same
    by (rewrite npfacts.zeros_like_length; lia).
  repeat split; intros; try lia.
  rewrite npfacts.nth_upd_other by lia. apply npfacts.nth_zeros_like.
Qed.

End Sweep.

(** ** The loss array and the error of a cut, in exact arithmetic

    [cut_error sign i labels] is the weight misclassified when the first
    [i] samples of the sorted order are sent to [-sign] and the others to
    [sign].  Without rounding, the loss array holds these numbers. *)

Section CutError.

Variable sign : Z.
Hypothesis Hsign : is_sign sign.

Lemma Qabs_cases (l : Q) :
  (0 <= l /\ Qabs l == l)%Q \/ (l < 0 /\ Qabs l == - l)%Q.
Proof.
  destruct (Qlt_le_dec l 0) as [H|H].
  - right. split; auto. apply Qabs_neg. lra.
  - left. split; auto. apply Qabs_pos. exact H.
Qed.

Lemma misclassified_flip l :
  (misclassified (- sign) l - misclassified sign l
   == l * inject_Z sign)%Q.
Proof.
  unfold misclassified.
  destruct (Qabs_cases l) as [[Hl Ha]|[Hl Ha]];
    destruct Hsign as [-> | ->]; simpl Z.opp;
    change (inject_Z 1) with 1%Q; change (inject_Z (-1)) with (-1 # 1)%Q;
    qcases; lra.
Qed.

Lemma misclassified_bounds pred l :
  (0 <= misclassified pred l <= Qabs l)%Q.
Proof.
  unfold misclassified. pose proof (Qabs_nonneg l).
  destruct (Qltb _ _); lra.
Qed.

Lemma where_wrong l :
  ((if Qltb (l * inject_Z sign) 0 then l else 0)
   == - inject_Z sign * misclassified sign l)%Q.
Proof.
  unfold misclassified.
  destruct (Qabs_cases l) as [[Hl Ha]|[Hl Ha]];
    destruct Hsign as [-> | ->];
    change (inject_Z 1) with 1%Q; change (inject_Z (-1)) with (-1 # 1)%Q;
    qcases; lra.
Qed.

Lemma sum_misclassified_bounds pred ls :
  (0 <= np.sum (map (misclassified pred) ls) <= np.sum (np.abs ls))%Q.
Proof.
  induction ls as [|l ls IH]; simpl.
  - lra.
  - pose proof (misclassified_bounds pred l). lra.
Qed.

Lemma loss0_cut labels : (loss0 sign labels == cut_error sign 0 labels)%Q.
Proof.
  unfold loss0, cut_error, np.where_. simpl firstn. simpl skipn.
  assert (H : (np.sum (map (fun e => if Qltb (e * inject_Z sign) 0
                                    then e else 0) labels)
               == - inject_Z sign
                  * np.sum (map (misclassified sign) labels))%Q).
  { induction labels as [|l ls IH]; simpl.
    - ring.
    - rewrite IH, where_wrong. ring. }
  rewrite H.
  pose proof (sum_misclassified_bounds sign labels) as [Hnn _].
  simpl np.sum at 2.
  destruct Hsign as [-> | ->];
    change (inject_Z 1) with 1%Q; change (inject_Z (-1)) with (-1 # 1)%Q.
  - rewrite Qabs_neg by lra. ring.
  - rewrite Qabs_pos by lra. ring.
Qed.

Lemma firstn_snoc (l : list Q) i :
  (i < length l)%nat -> firstn (S i) l = firstn i l ++ [nth i l 0%Q].
Proof.
  revert i. induction l as [|x r IH]; intros [|i] H; simpl in *;
    try lia; auto.
  f_equal. apply IH. lia.
Qed.

Lemma skipn_cons (l : list Q) i :
  (i < length l)%nat -> skipn i l = nth i l 0%Q :: skipn (S i) l.
Proof.
  revert i. induction l as [|x r IH]; intros [|i] H; simpl in *;
    try lia; auto.
  apply IH. lia.
Qed.

Lemma cut_error_step labels i :
  (i < length labels)%nat ->
  (cut_error sign (S i) labels
   == cut_error sign i labels + nth i labels 0 * inject_Z sign)%Q.
Proof.
  intro Hi. unfold cut_error.
  rewrite (firstn_snoc _ Hi), (skipn_cons _ Hi), map_app.
  rewrite npfacts.sum_app. simpl.
  pose proof (misclassified_flip (nth i labels 0%Q)). lra.
Qed.

Lemma cut_error_bounds labels i :
  (0 <= cut_error sign i labels <= np.sum (np.abs labels))%Q.
Proof.
  unfold cut_error.
  pose proof (sum_misclassified_bounds (- sign) (firstn i labels)).
  pose proof (sum_misclassified_bounds sign (skipn i labels)).
  assert (Hs : (np.sum (np.abs labels)
                == np.sum (np.abs (firstn i labels))
                   + np.sum (np.abs (skipn i labels)))%Q).
  { rewrite <- (firstn_skipn i labels) at 1.
    unfold np.abs. rewrite map_app. apply npfacts.sum_app. }
  lra.
Qed.

(** Every entry of the loss array, before the ties are masked, is the
    error of the cut at its index. *)
Lemma loss_is_cut_error values labels st :
  sweep_inv sign values labels (length values - 1) st ->
  length values = length labels ->
  forall i, (i < length values)%nat ->
    (nth i (fst st) 0 == cut_error sign i labels)%Q.
Proof.
  intros (_ & _ & H0 & _ & Hloss & _) Hlen.
  induction i as [|i IH]; intro Hi.
  - rewrite H0. apply loss0_cut.
  - rewrite Hloss by lia. replace (S i - 1)%nat with i by lia.
    rewrite IH by lia. symmetry. apply cut_error_step. lia.
Qed.

End CutError.

(** ** The stages of [_find_threshold] on well-formed input *)

Lemma sorted_rows_ok (values labels : list Q) :
  length values = length labels ->
  exists vl, sorted_rows values labels = Ok vl /\
             Permutation vl (combine values labels) /\
             StronglySorted Qle (map fst vl).
Proof.
  intro Hlen. unfold sorted_rows, np.c_.
  rewrite (proj2 (Nat.eqb_eq _ _) Hlen). cbn [bind].
  eexists. split; [reflexivity|]. split.
  - apply npfacts.take_perm.
    rewrite npfacts.argsort_perm, length_map. reflexivity.
  - apply npfacts.take_sorted, npfacts.argsort_sorted.
Qed.

Lemma sorted_rows_length (values labels : list Q) (vl : list (Q * Q)) :
  length values = length labels ->
  Permutation vl (combine values labels) -> length vl = length values.
Proof.
  intros Hlen H. rewrite (Permutation_length H), length_combine. lia.
Qed.

Lemma combine_fst (values labels : list Q) :
  length values = length labels -> map fst (combine values labels) = values.
Proof.
  revert labels.
  induction values as [|v vs IH]; intros [|l ls] H; simpl in *;
    try discriminate; auto.
  f_equal. apply IH. lia.
Qed.

Lemma combine_snd (values labels : list Q) :
  length values = length labels -> map snd (combine values labels) = labels.
Proof.
  revert labels.
  induction values as [|v vs IH]; intros [|l ls] H; simpl in *;
    try discriminate; auto.
  f_equal. apply IH. lia.
Qed.

Lemma sorted_values_perm (values labels : list Q) (vl : list (Q * Q)) :
  length values = length labels ->
  Permutation vl (combine values labels) ->
  Permutation (map fst vl) values.
Proof.
  intros Hlen H. rewrite (Permutation_map fst H), (combine_fst _ _ Hlen).
  reflexivity.
Qed.

Lemma sorted_labels_perm (values labels : list Q) (vl : list (Q * Q)) :
  length values = length labels ->
  Permutation vl (combine values labels) ->
  Permutation (map snd vl) labels.
Proof.
  intros Hlen H. rewrite (Permutation_map snd H), (combine_snd _ _ Hlen).
  reflexivity.
Qed.

Lemma find_threshold_run sign values labels :
  valid_input sign values labels ->
  exists svalues slabels loss is_first_time masked,
    run sign values labels svalues slabels loss is_first_time masked.
Proof.
  intro Hvalid. pose proof Hvalid as (Hlen & Hne & _).
  destruct (sorted_rows_ok _ _ Hlen) as (vl & Hvl & Hperm & Hsorted).
  pose proof (sorted_rows_length _ _ Hlen Hperm) as Hn.
  assert (Hlv : length (map fst vl) = length values)
    by (rewrite length_map; exact Hn).
  assert (Hll : length (normalise (map snd vl)) = length values)
    by (unfold normalise; rewrite !length_map; exact Hn).
  destruct (@sweep_ok sign (map fst vl) (normalise (map snd vl)))
    as ([loss ift] & Hsw & Hinv).
  { congruence. }
  { intro E. rewrite E in Hlv. destruct values; simpl in *; congruence. }
  rewrite Hlv in Hinv.
  exists (map fst vl), (normalise (map snd vl)), loss, ift,
         (mask_ties loss ift).
  assert (Hm : masked_loss sign values labels
               = Ok (map fst vl, normalise (map snd vl),
                     mask_ties loss ift)).
  { unfold masked_loss. rewrite Hvl. cbn [bind]. rewrite Hsw.
    reflexivity. }
  split; auto.
  - apply sorted_values_perm with labels; assumption.
  - exists vl. auto.
  - intros a b Hab Hb. apply npfacts.sorted_nth; auto.
    rewrite Hlv. exact Hb.
  - unfold _find_threshold. rewrite Hm. reflexivity.
Qed.

Section Run.

Variable sign : Z.
Variables values labels : list Q.


Variables svalues slabels loss is_first_time masked : list Q.
Hypothesis R :
  run sign values labels svalues slabels loss is_first_time masked.

Let Hvalid : valid_input sign values labels := run_valid R.
Let Hlen : length values = length labels := proj1 Hvalid.
Let Hne : values <> [] := proj1 (proj2 Hvalid).
Let Hsign : is_sign sign := proj2 (proj2 (proj2 Hvalid)).

Let n := length values.

Lemma run_pos : (0 < n)%nat.
Proof. unfold n. destruct values; simpl; [congruence | lia]. Qed.

Lemma run_loss_length : length loss = n.
Proof.
  destruct (run_sweep R) as (H & _).
  unfold n. rewrite <- (run_length_values R). exact H.
Qed.

Lemma run_first_length : length is_first_time = n.
Proof.
  destruct (run_sweep R) as (_ & H & _).
  unfold n. rewrite <- (run_length_values R). exact H.
Qed.

Lemma run_masked_length : length masked = n.
Proof.
  rewrite (run_masked R). unfold mask_ties, np.assign_where_not_one.
  rewrite length_map, length_combine, run_loss_length, run_first_length.
  lia.
Qed.

Lemma run_masked_nth i :
  (i < n)%nat ->
  nth i masked 0%Q
  = if negb (Qeq_bool (nth i is_first_time 0%Q) 1)
    then (np.max loss + 1)%Q else nth i loss 0%Q.
Proof.
  intro Hi. rewrite (run_masked R).
  unfold mask_ties, np.assign_where_not_one.
  set (f := fun p : Q * Q => _).
  rewrite (nth_indep _ 0%Q (f (0%Q, 0%Q)))
    by (rewrite length_map, length_combine, run_loss_length,
          run_first_length; lia).
  rewrite map_nth, combine_nth
    by (rewrite run_loss_length, run_first_length; reflexivity).
  reflexivity.
Qed.

Lemma run_first_time i :
  (i < n)%nat ->
  (nth i is_first_time 0%Q = 1%Q /\ first_time svalues i) \/
  (nth i is_first_time 0%Q = 0%Q /\ ~ first_time svalues i).
Proof.
  intro Hi. destruct (run_sweep R) as (_ & _ & _ & H0 & _ & Hift & _).
  cbn [fst snd] in *.
  destruct i as [|i].
  - left. split; [exact H0 | left; reflexivity].
  - rewrite Hift by (fold n; lia).
    destruct (Qeq_bool _ _) eqn:E; simpl.
    + right. split; auto. apply Qeq_bool_iff in E.
      intros [H|[_ H]]; [lia | contradiction].
    + left. split; auto. right. split; [lia|].
      apply Qeq_bool_false. exact E.
Qed.

Lemma run_sentinel i :
  (i < n)%nat -> (nth i loss 0 < np.max loss + 1)%Q.
Proof.
  intro Hi.
  assert (H : (nth i loss 0 <= np.max loss)%Q).
  { apply npfacts.max_ge, nth_In. rewrite run_loss_length. exact Hi. }
  lra.
Qed.

Lemma run_argmin :
  is_first_min masked (np.argmin masked).
Proof.
  apply npfacts.argmin_spec. intro E.
  pose proof run_masked_length as H. rewrite E in H.
  pose proof run_pos. simpl in H. lia.
Qed.

(** The selected index starts a run of equal values, and there the
    masked array still holds the loss. *)
Lemma run_argmin_first_time :
  let index := np.argmin masked in
  (index < n)%nat /\ first_time svalues index /\
  nth index masked 0%Q = nth index loss 0%Q.
Proof.
  intro index. destruct run_argmin as (Hlt & Hmin & _).
  fold index in Hlt, Hmin. rewrite run_masked_length in Hlt, Hmin.
  split; [exact Hlt|].
  pose proof (Hmin 0%nat run_pos) as H0.
  rewrite (run_masked_nth run_pos) in H0.
  destruct (run_first_time run_pos) as [[E0 _]|[_ Hn0]];
    [|exfalso; apply Hn0; left; reflexivity].
  rewrite E0 in H0. simpl in H0.
  rewrite (run_masked_nth Hlt) in H0 |- *.
  destruct (run_first_time Hlt) as [[E F]|[E F]]; rewrite E in *;
    simpl in *.
  - split; auto.
  - pose proof (run_sentinel run_pos). lra.
Qed.

End Run.

(** ** Normalised labels have total weight one, in exact arithmetic *)

Lemma normalise_total raw :
  (0 < np.sum (np.abs raw))%Q ->
  (np.sum (np.abs (normalise raw)) == 1)%Q.
Proof.
  intro Hpos. unfold normalise.
  set (S := np.sum (np.abs raw)) in *.
  assert (H : forall ls,
    (np.sum (np.abs (map (fun l => l / S) ls))
     == np.sum (np.abs ls) / S)%Q).
  { induction ls as [|l ls IH].
    - simpl. field. lra.
    - assert (E : (Qabs (l / S) == Qabs l / S)%Q).
      { unfold Qdiv. rewrite Qabs_Qmult.
        rewrite (Qabs_pos (/ S))
          by (apply Qlt_le_weak, Qinv_lt_0_compat, Hpos).
        reflexivity. }
      unfold np.abs, np.sum in *. cbn [map fold_right].
      rewrite IH, E. field. lra. }
  rewrite H. fold S. field. lra.
Qed.

Lemma abs_sum_perm a b :
  Permutation a b -> (np.sum (np.abs a) == np.sum (np.abs b))%Q.
Proof.
  intro H. apply npfacts.sum_perm. unfold np.abs.
  apply Permutation_map. exact H.
Qed.

Section Results.

Variable sign : Z.
Variables values labels : list Q.
Variables svalues slabels loss is_first_time masked : list Q.
Hypothesis R :
  run sign values labels svalues slabels loss is_first_time masked.

Let Hvalid : valid_input sign values labels := run_valid R.
Let Hlen : length values = length labels := proj1 Hvalid.
Let Hne : values <> [] := proj1 (proj2 Hvalid).
Let Hsign : is_sign sign := proj2 (proj2 (proj2 Hvalid)).

Lemma run_total_weight : (np.sum (np.abs slabels) == 1)%Q.
Proof.
  destruct (run_rows R) as (vl & Hperm & _ & ->).
  apply normalise_total.
  rewrite (abs_sum_perm (sorted_labels_perm _ _ Hlen Hperm)).
  apply Hvalid.
Qed.

Lemma run_loss_cut i :
  (i < length values)%nat ->
  (nth i loss 0 == cut_error sign i slabels)%Q.
Proof.
  intro Hi.
  pose proof (run_sweep R) as Hinv.
  rewrite <- (run_length_values R) in Hinv, Hi.
  apply (loss_is_cut_error Hsign Hinv); auto.
  rewrite (run_length_values R), (run_length_labels R). reflexivity.
Qed.

Lemma run_loss_range i :
  (i < length values)%nat -> (0 <= nth i loss 0 <= 1)%Q.
Proof.
  intro Hi. rewrite (run_loss_cut Hi), <- run_total_weight.
  apply cut_error_bounds.
Qed.

(** The error of excluding every sample: the last loss plus the last
    signed label. *)
Lemma run_exclude_all_range :
  (0 <= nth (length values - 1) loss 0
        + nth (length values - 1) slabels 0 * inject_Z sign <= 1)%Q.
Proof.
  assert (Hpos : (0 < length values)%nat)
    by (destruct values; simpl; [congruence | lia]).
  rewrite run_loss_cut by lia.
  rewrite <- cut_error_step
    by (auto; rewrite (run_length_labels R); lia).
  rewrite <- run_total_weight. apply cut_error_bounds.
Qed.

End Results.

Ltac solve_valid :=
  unfold valid_input, is_sign; simpl;
  repeat split; try reflexivity; try discriminate; auto.

Lemma valid_run sign values labels :
  valid_input sign values labels ->
  exists svalues slabels loss is_first_time masked,
    run sign values labels svalues slabels loss is_first_time masked.
Proof.
  apply find_threshold_run.
Qed.

(** ** Thresholds and the values that reach them *)

Lemma fge_reaches v threshold :
  fge (Fin v) threshold = true <-> reaches v threshold.
Proof.
  unfold fge. destruct threshold as [|t|]; simpl; try tauto.
  - rewrite negb_true_iff. apply Qltb_ge.
  - split; [discriminate | tauto].
Qed.

(** ** What the returned pair achieves, in exact arithmetic

    Without rounding, the error returned is the error of the returned
    threshold, and no threshold that leaves at least one sample on the
    [sign] side does better. *)

Lemma reaches_mono v v' threshold :
  reaches v threshold -> (v <= v')%Q -> reaches v' threshold.
Proof.
  destruct threshold as [|t|]; simpl; auto. intros. lra.
Qed.

Lemma below_count_below threshold l j :
  (j < below_count threshold l)%nat -> ~ reaches (nth j l 0%Q) threshold.
Proof.
  revert j. induction l as [|v r IH]; intros j Hj; simpl in *; [lia|].
  destruct (fge (Fin v) threshold) eqn:E; [lia|].
  destruct j as [|j].
  - intro H. apply fge_reaches in H. congruence.
  - apply IH. lia.
Qed.

Lemma below_count_reached threshold l :
  (below_count threshold l < length l)%nat ->
  reaches (nth (below_count threshold l) l 0%Q) threshold.
Proof.
  induction l as [|v r IH]; simpl; [lia|].
  destruct (fge (Fin v) threshold) eqn:E.
  - intros _. apply fge_reaches. exact E.
  - intro H. apply IH. lia.
Qed.

Lemma below_count_le threshold l : (below_count threshold l <= length l)%nat.
Proof.
  induction l as [|v r IH]; simpl; [lia|].
  destruct (fge (Fin v) threshold); lia.
Qed.

Lemma sum_ext {A : Type} (f g : A -> Q) l :
  (forall x, In x l -> (f x == g x)%Q) ->
  (np.sum (map f l) == np.sum (map g l))%Q.
Proof.
  induction l as [|x r IH]; intro H; simpl.
  - reflexivity.
  - rewrite (H x) by (left; reflexivity).
    rewrite IH by (intros y Hy; apply H; right; exact Hy). reflexivity.
Qed.

Lemma sum_split_at {A : Type} (f g h : A -> Q) (d : A) l : forall i,
  (forall j, (j < i)%nat -> (j < length l)%nat ->
     (f (nth j l d) == g (nth j l d))%Q) ->
  (forall j, (i <= j)%nat -> (j < length l)%nat ->
     (f (nth j l d) == h (nth j l d))%Q) ->
  (np.sum (map f l)
   == np.sum (map g (firstn i l)) + np.sum (map h (skipn i l)))%Q.
Proof.
  induction l as [|x r IH]; intros i Hg Hh.
  - rewrite firstn_nil, skipn_nil. simpl. ring.
  - destruct i as [|i].
    + simpl firstn. simpl skipn. simpl np.sum at 2.
      rewrite (sum_ext f h); [ring|].
      intros y Hy. destruct (In_nth _ _ d Hy) as (j & Hj & <-).
      apply Hh; [lia | exact Hj].
    + simpl. rewrite (Hg 0%nat) by (simpl; lia). simpl.
      rewrite (IH i).
      * ring.
      * intros j Hj Hl. apply (Hg (S j)); simpl; lia.
      * intros j Hj Hl. apply (Hh (S j)); simpl; lia.
Qed.

Lemma sum_div {A : Type} (f : A -> Q) (S : Q) l :
  ~ (S == 0)%Q ->
  (np.sum (map f l) / S == np.sum (map (fun x => f x / S) l))%Q.
Proof.
  intro HS. induction l as [|x r IH].
  - simpl. field. exact HS.
  - unfold np.sum in *. cbn [map fold_right]. rewrite <- IH. field. exact HS.
Qed.

Lemma Qabs_div_pos l S : (0 < S)%Q -> (Qabs (l / S) == Qabs l / S)%Q.
Proof.
  intro Hpos. unfold Qdiv. rewrite Qabs_Qmult.
  rewrite (Qabs_pos (/ S)) by (apply Qlt_le_weak, Qinv_lt_0_compat, Hpos).
  reflexivity.
Qed.

Lemma misclassified_scale pred l S :
  (0 < S)%Q ->
  (misclassified pred (l / S) == misclassified pred l / S)%Q.
Proof.
  intro Hpos. unfold misclassified.
  assert (Hinv : (0 < / S)%Q) by (apply Qinv_lt_0_compat, Hpos).
  assert (E : (l / S * inject_Z pred == l * inject_Z pred * / S)%Q)
    by (field; lra).
  assert (Hiff : (l / S * inject_Z pred < 0 <-> l * inject_Z pred < 0)%Q).
  { rewrite E.
    pose proof (Qmult_lt_r (l * inject_Z pred) 0 (/ S) Hinv) as H.
    rewrite Qmult_0_l in H. exact H. }
  destruct (Qltb (l / S * inject_Z pred) 0) eqn:E1;
    destruct (Qltb (l * inject_Z pred) 0) eqn:E2.
  - apply Qabs_div_pos, Hpos.
  - apply Qltb_lt in E1. apply Qltb_ge in E2. apply Hiff in E1. lra.
  - apply Qltb_ge in E1. apply Qltb_lt in E2. apply Hiff in E2. lra.
  - field. lra.
Qed.

Section Achieves.

Variable sign : Z.
Variables values labels : list Q.
Variables svalues slabels loss is_first_time masked : list Q.
Hypothesis R :
  run sign values labels svalues slabels loss is_first_time masked.

Let Hvalid : valid_input sign values labels := run_valid R.
Let Hlen : length values = length labels := proj1 Hvalid.
Let Hne : values <> [] := proj1 (proj2 Hvalid).
Let Hsign : is_sign sign := proj2 (proj2 (proj2 Hvalid)).

Let n := length values.

(** The error of a threshold, read off the sorted rows: it is the error
    of the cut at [i] when exactly the first [i] sorted values stay below
    the threshold. *)
Lemma weighted_error_cut threshold i :
  (forall j, (j < i)%nat -> (j < n)%nat ->
     ~ reaches (nth j svalues 0%Q) threshold) ->
  (forall j, (i <= j)%nat -> (j < n)%nat ->
     reaches (nth j svalues 0%Q) threshold) ->
  (weighted_error threshold sign values labels
   == cut_error sign i slabels)%Q.
Proof.
  intros Hbelow Habove.
  destruct (run_rows R) as (vl & Hperm & Hsv & Hsl).
  pose proof (sorted_labels_perm _ _ Hlen Hperm) as Hpl.
  assert (Hpos : (0 < np.sum (np.abs (map snd vl)))%Q)
    by (rewrite (abs_sum_perm Hpl); apply Hvalid).
  set (S := np.sum (np.abs (map snd vl))) in *.
  assert (Hvl : length vl = n)
    by (unfold n; rewrite <- (run_length_values R), Hsv, length_map;
        reflexivity).
  assert (Hfst : forall j, fst (nth j vl (0%Q, 0%Q)) = nth j svalues 0%Q)
    by (intro j; rewrite Hsv; symmetry;
        apply (map_nth fst vl (0%Q, 0%Q))).
  unfold weighted_error.
  rewrite <- (abs_sum_perm Hpl). fold S.
  rewrite <- (npfacts.sum_perm (Permutation_map _ Hperm)).
  rewrite sum_div by lra.
  rewrite (@sum_split_at _ _
             (fun p => misclassified (- sign) (snd p / S))
             (fun p => misclassified sign (snd p / S))
             (0%Q, 0%Q) vl i).
  - unfold cut_error. rewrite Hsl. unfold normalise. fold S.
    rewrite !firstn_map, !skipn_map, !map_map. reflexivity.
  - intros j Hj Hl. rewrite Hvl in Hl.
    rewrite <- misclassified_scale by exact Hpos.
    unfold predict_value. rewrite Hfst.
    destruct (fge (Fin (nth j svalues 0%Q)) threshold) eqn:E;
      [|reflexivity].
    apply fge_reaches in E. exfalso. exact (Hbelow j Hj Hl E).
  - intros j Hj Hl. rewrite Hvl in Hl.
    rewrite <- misclassified_scale by exact Hpos.
    unfold predict_value. rewrite Hfst.
    destruct (fge (Fin (nth j svalues 0%Q)) threshold) eqn:E;
      [reflexivity|].
    exfalso. pose proof (Habove j Hj Hl) as H.
    apply fge_reaches in H. congruence.
Qed.

Lemma run_first_time_loss i :
  (i < n)%nat -> first_time svalues i ->
  nth i masked 0%Q = nth i loss 0%Q.
Proof.
  intros Hi Hf. rewrite (run_masked_nth R Hi).
  destruct (run_first_time R Hi) as [[E _]|[_ F]]; [|contradiction].
  rewrite E. reflexivity.
Qed.

(** A run of sorted values starts at [i]: the values before it are
    strictly smaller, the values from it on are at least as large. *)
Lemma first_time_splits i :
  (i < n)%nat -> first_time svalues i ->
  (forall j, (j < i)%nat -> (j < n)%nat ->
     ~ reaches (nth j svalues 0%Q) (Fin (nth i svalues 0%Q))) /\
  (forall j, (i <= j)%nat -> (j < n)%nat ->
     reaches (nth j svalues 0%Q) (Fin (nth i svalues 0%Q))).
Proof.
  intros Hi Hf. split; intros j Hj Hl; simpl.
  - destruct Hf as [->|[H1 Hneq]]; [lia|].
    pose proof (run_sorted R (a := j) (b := i - 1)
                  ltac:(lia) ltac:(fold n; lia)) as Ha.
    pose proof (run_sorted R (a := i - 1) (b := i)
                  ltac:(lia) ltac:(fold n; lia)) as Hb.
    intro Hc. apply Hneq. lra.
  - apply (run_sorted R); [lia | exact Hl].
Qed.

Lemma run_exclude_all_cut :
  (nth (n - 1) loss 0 + nth (n - 1) slabels 0 * inject_Z sign
   == cut_error sign n slabels)%Q.
Proof.
  assert (Hpos : (0 < n)%nat)
    by (unfold n; destruct values; simpl; [congruence | lia]).
  rewrite (run_loss_cut R) by (fold n; lia).
  rewrite <- cut_error_step
    by (auto; rewrite (run_length_labels R); fold n; lia).
  replace (Datatypes.S (n - 1)) with n by lia. reflexivity.
Qed.

(** The returned pair, by the cut it stands for. *)
Lemma run_select :
  let index := np.argmin masked in
  exists thr err i,
    _find_threshold sign values labels = Ok (thr, err) /\
    (err == cut_error sign i slabels)%Q /\
    (err <= nth index masked 0)%Q /\
    ((thr = NegInf /\ i = 0%nat) \/
     (thr = Fin (nth index svalues 0%Q) /\ i = index /\
      (1 <= index)%nat) \/
     (thr = PosInf /\ i = n)).
Proof.
  intro index. rewrite (run_result R). fold index.
  destruct (run_argmin_first_time R) as (Hidx & _ & Hmasked).
  fold index in Hidx, Hmasked. fold n in Hidx.
  pose proof (run_loss_cut R Hidx) as Hcut.
  pose proof run_exclude_all_cut as Hall.
  unfold select. rewrite (run_length_labels R). fold n.
  destruct (index =? 0)%nat eqn:E0.
  { apply Nat.eqb_eq in E0.
    exists NegInf, (nth 0 masked 0%Q), 0%nat.
    rewrite E0 in *. rewrite Hmasked.
    split; [reflexivity|]. split; [exact Hcut|].
    split; [apply Qle_refl | auto]. }
  apply Nat.eqb_neq in E0.
  assert (Hfin :
    exists thr err i,
      Ok (Fin (nth index svalues 0%Q), nth index masked 0%Q)
      = Ok (thr, err) /\
      (err == cut_error sign i slabels)%Q /\
      (err <= nth index masked 0)%Q /\
      ((thr = NegInf /\ i = 0%nat) \/
       (thr = Fin (nth index svalues 0%Q) /\ i = index /\
        (1 <= index)%nat) \/
       (thr = PosInf /\ i = n))).
  { exists (Fin (nth index svalues 0%Q)), (nth index masked 0%Q), index.
    split; [reflexivity|]. rewrite Hmasked. split; [exact Hcut|].
    split; [apply Qle_refl|]. right. left. repeat split. lia. }
  destruct (index =? n - 1)%nat eqn:E1; [|exact Hfin].
  apply Nat.eqb_eq in E1. rewrite <- E1 in Hall.
  destruct (sign =? 1)%Z eqn:Es.
  - apply Z.eqb_eq in Es.
    destruct (Qltb 0 (nth index slabels 0%Q)) eqn:El; [exact Hfin|].
    apply Qltb_ge in El.
    exists PosInf, (nth index masked 0 + nth index slabels 0)%Q, n.
    split; [reflexivity|]. rewrite Hmasked, <- Hall. rewrite Es.
    change (inject_Z 1) with 1%Q.
    split; [ring|]. split; [lra | auto].
  - apply Z.eqb_neq in Es.
    assert (Em : sign = (-1)%Z) by (destruct Hsign; congruence).
    destruct (Qltb 0 (nth index slabels 0%Q)) eqn:El; [|exact Hfin].
    apply Qltb_lt in El.
    exists PosInf, (nth index masked 0 - nth index slabels 0)%Q, n.
    split; [reflexivity|]. rewrite Hmasked, <- Hall. rewrite Em.
    change (inject_Z (-1)) with (-1 # 1)%Q.
    split; [ring|]. split; [lra | auto].
Qed.

End Achieves.

(** In exact arithmetic the returned error is the error of the returned
    threshold under the rule "value >= threshold -> sign, else -sign", and
    it is at most the error of every threshold that some input value
    reaches. *)
Theorem find_threshold_achieves sign values labels :
  valid_input sign values labels ->
  exists thr err,
    _find_threshold sign values labels = Ok (thr, err) /\
    (err == weighted_error thr sign values labels)%Q /\
    forall t, (exists v, In v values /\ reaches v t) ->
      (err <= weighted_error t sign values labels)%Q.
Proof.
  intro Hvalid.
  destruct (valid_run Hvalid) as (sv & sl & loss & ift & masked & R).
  pose proof Hvalid as (Hlen & Hne & Hpos & Hsign).
  destruct (run_select R) as (thr & err & i & Hft & Hcut & Hle & Hthr).
  destruct (run_argmin_first_time R) as (Hidx & Hfirst & Hmasked).
  set (index := np.argmin masked) in *.
  exists thr, err. split; [exact Hft|]. split.
  - rewrite Hcut. symmetry. apply (weighted_error_cut R).
    + destruct Hthr as [[-> ->]|[(-> & -> & H1)|[-> ->]]].
      * intros; lia.
      * apply (first_time_splits R Hidx Hfirst).
      * intros j _ _ H. exact H.
    + destruct Hthr as [[-> ->]|[(-> & -> & H1)|[-> ->]]].
      * intros; exact I.
      * apply (first_time_splits R Hidx Hfirst).
      * intros; lia.
  - intros t (v & Hv & Hreach).
    set (i' := below_count t sv).
    assert (Hi' : (i' < length values)%nat).
    { pose proof (below_count_le t sv) as Hle'. fold i' in Hle'.
      rewrite (run_length_values R) in Hle'.
      destruct (Nat.eq_dec i' (length values)) as [E|E]; [|lia].
      exfalso. apply (Permutation_in _ (Permutation_sym (run_values R)))
        in Hv.
      destruct (In_nth _ _ 0%Q Hv) as (j & Hj & <-).
      rewrite (run_length_values R) in Hj.
      apply (@below_count_below t sv j); [fold i'; lia | exact Hreach]. }
    assert (Hat : reaches (nth i' sv 0%Q) t).
    { apply below_count_reached. fold i'.
      rewrite (run_length_values R). exact Hi'. }
    assert (Hf : first_time sv i').
    { destruct (Nat.eq_dec i' 0) as [E|E]; [left; exact E|].
      right. split; [lia|]. intro Heq.
      apply (@below_count_below t sv (i' - 1)); [fold i'; lia|].
      apply (reaches_mono _ Hat). rewrite Heq. apply Qle_refl. }
    rewrite (weighted_error_cut R (i := i') t).
    + rewrite <- (run_loss_cut R Hi').
      rewrite <- (run_first_time_loss R Hi' Hf).
      destruct (run_argmin R) as (_ & Hmin & _).
      specialize (Hmin i'). rewrite (run_masked_length R) in Hmin.
      specialize (Hmin Hi'). fold index in Hmin. lra.
    + intros j Hj _. apply below_count_below. exact Hj.
    + intros j Hj Hl. apply (reaches_mono _ Hat).
      apply (run_sorted R); [exact Hj | exact Hl].
Qed.

(** ** The search of [_fit] *)

Section FitSearch.

Variable col : nat -> list Q.
Variable y : list Q.

Lemma seen_min_step C best i s :
  seen_min col y C best ->
  (exists r, _find_threshold s (col i) y = Ok r) ->
  exists best',
    try_candidate (col i) y i best s = Ok best' /\
    seen_min col y (C ++ [(i, s)]) best'.
Proof.
  intros Hseen [[thr err] Hft]. unfold try_candidate. rewrite Hft.
  cbn [bind].
  destruct Hseen as [[-> ->]|(i0 & s0 & t0 & e0 & -> & Hin & Hft0 & Hmin)].
  - simpl. eexists. split; [reflexivity|]. right.
    exists i, s, thr, err. repeat split; simpl; auto.
    intros i' s' [H|[]]. inversion H; subst.
    exists thr, err. split; [assumption | apply Qle_refl].
  - cbn [flt]. destruct (Qltb err e0) eqn:E.
    + apply Qltb_lt in E. eexists. split; [reflexivity|]. right.
      exists i, s, thr, err. repeat split; auto.
      * apply in_or_app. right. left. reflexivity.
      * intros i' s' H. apply in_app_or in H. destruct H as [H|[H|[]]].
        -- destruct (Hmin _ _ H) as (t' & e' & Hf & Hle).
           exists t', e'. split; auto. lra.
        -- inversion H; subst. exists thr, err.
           split; [assumption | apply Qle_refl].
    + apply Qltb_ge in E. eexists. split; [reflexivity|]. right.
      exists i0, s0, t0, e0. repeat split; auto.
      * apply in_or_app. left. exact Hin.
      * intros i' s' H. apply in_app_or in H. destruct H as [H|[H|[]]].
        -- apply Hmin. exact H.
        -- inversion H; subst. exists thr, err. split; assumption.
Qed.

Lemma seen_min_signs C best i :
  seen_min col y C best ->
  total_at col y i ->
  exists best',
    for_each [(-1)%Z; 1%Z] (try_candidate (col i) y i) best = Ok best' /\
    seen_min col y (C ++ candidates [i]) best'.
Proof.
  intros Hseen Htot. cbn [for_each].
  destruct (seen_min_step i (-1)%Z Hseen) as (b1 & E1 & H1).
  { apply Htot. right. reflexivity. }
  destruct (seen_min_step i 1%Z H1) as (b2 & E2 & H2).
  { apply Htot. left. reflexivity. }
  rewrite E1. cbn [bind]. rewrite E2. cbn [bind].
  exists b2. split; [reflexivity|].
  rewrite <- app_assoc in H2. exact H2.
Qed.

Lemma for_each_cons {A S : Type} (a : A) r (body : S -> A -> result S) s0 :
  for_each (a :: r) body s0 = bind (body s0 a) (for_each r body).
Proof. reflexivity. Qed.

Lemma seen_min_features L : forall C best,
  seen_min col y C best ->
  (forall i, In i L -> total_at col y i) ->
  exists best',
    for_each L
      (fun best i =>
         let cur_vec := col i in
         for_each [(-1)%Z; 1%Z] (try_candidate cur_vec y i) best)
      best = Ok best' /\
    seen_min col y (C ++ candidates L) best'.
Proof.
  induction L as [|i L IH]; intros C best Hseen Htot.
  - exists best. split; [reflexivity|].
    unfold candidates. simpl. rewrite app_nil_r. exact Hseen.
  - destruct (seen_min_signs (i := i) Hseen) as (b1 & E1 & H1).
    { apply Htot. left. reflexivity. }
    destruct (IH _ _ H1) as (b2 & E2 & H2).
    { intros k Hk. apply Htot. right. exact Hk. }
    exists b2. rewrite for_each_cons. cbv beta zeta. rewrite E1.
    cbn [bind].
    split; [exact E2|].
    rewrite <- app_assoc in H2. exact H2.
Qed.

End FitSearch.

Lemma find_threshold_total sign values labels :
  valid_input sign values labels ->
  exists r, _find_threshold sign values labels = Ok r.
Proof.
  intro Hvalid.
  destruct (find_threshold_run Hvalid)
    as (sv & sl & loss & ift & masked & R).
  eexists. apply (run_result R).
Qed.

Lemma feature_total X y j :
  valid_fit_input X y -> total_at (feature X) y j.
Proof.
  intros (Hne & Hpos & HX) s Hs. apply find_threshold_total.
  assert (Hlen : length (feature X j) = length y).
  { destruct X as [a|ncols rows]; simpl.
    - exact HX.
    - unfold column. rewrite length_map. apply HX. }
  repeat split; auto.
  intro E. rewrite E in Hlen. destruct y; [congruence | discriminate].
Qed.

Lemma fit_search_seen_min X y :
  valid_fit_input X y ->
  exists best,
    fit_search X y = Ok best /\
    seen_min (feature X) y (candidates (seq 0 (n_features X))) best.
Proof.
  intro Hvalid.
  assert (H0 : seen_min (feature X) y [] best_init) by (left; auto).
  destruct X as [a|ncols rows].
  - destruct (seen_min_signs (i := 0%nat) H0) as (b & E & H).
    { apply feature_total. exact Hvalid. }
    exists b. split; [exact E | exact H].
  - destruct (seen_min_features (seq 0 ncols) H0) as (b & E & H).
    { intros i _. apply feature_total. exact Hvalid. }
    exists b. split; [exact E | exact H].
Qed.

Lemma fit_search_minimum X y :
  valid_fit_input X y ->
  exists j thr err s,
    fit_search X y = Ok (j, Some thr, Fin err, s) /\
    (j < n_features X)%nat /\ is_sign s /\
    _find_threshold s (feature X j) y = Ok (thr, err) /\
    forall j' s', (j' < n_features X)%nat -> is_sign s' ->
      exists thr' err',
        _find_threshold s' (feature X j') y = Ok (thr', err') /\
        (err <= err')%Q.
Proof.
  intro Hvalid.
  destruct (fit_search_seen_min Hvalid) as (best & Hfit & Hseen).
  assert (Hcand : forall j s,
            In (j, s) (candidates (seq 0 (n_features X)))
            <-> (j < n_features X)%nat /\ is_sign s).
  { intros j s. unfold candidates. rewrite in_flat_map. split.
    - intros (i & Hi & [H|[H|[]]]); inversion H; subst;
        apply in_seq in Hi; (split; [lia|]); [right | left]; reflexivity.
    - intros [Hj Hs]. exists j. split; [apply in_seq; lia|].
      destruct Hs as [-> | ->]; simpl; auto. }
  destruct Hseen as [[Hnil _]|(j & s & thr & err & -> & Hin & Hft & Hmin)].
  - exfalso. destruct Hvalid as (_ & _ & HX).
    assert (Hpos : (0 < n_features X)%nat)
      by (destruct X; simpl in *; lia).
    assert (H : In (0%nat, 1%Z) (candidates (seq 0 (n_features X))))
      by (apply Hcand; split; [exact Hpos | left; reflexivity]).
    rewrite Hnil in H. exact H.
  - exists j, thr, err, s. apply Hcand in Hin. destruct Hin as [Hj Hs].
    split; [exact Hfit|]. split; [exact Hj|]. split; [exact Hs|].
    split; [exact Hft|].
    intros j' s' Hj' Hs'. apply Hmin, Hcand. split; assumption.
Qed.

(** * The claims *)

(** C1.  The search does not always reach the minimum over the [n+1]
    cuts.  On [values = [1,2,3,4]], [labels = [-1,1,-1,-1]], sign [+1], it
    returns threshold 2 with error 1/2, which is the error of that
    threshold; the cut that sends every sample to [-sign] (threshold
    [+inf]) has error 1/4.  That cut is evaluated only when [np.argmin]
    lands on the last index, and not for a single sample:
    [values = [5]], [labels = [-1]], sign [+1] returns [-inf] with error 1,
    where [+inf] has error 0. *)
Theorem find_threshold_misses_exclude_all :
  (valid_input 1 [1; 2; 3; 4]%Q [-1; 1; -1; -1]%Q /\
   exists err,
     _find_threshold 1 [1; 2; 3; 4]%Q [-1; 1; -1; -1]%Q = Ok (Fin 2, err) /\
     (err == 1 # 2)%Q /\
     (weighted_error (Fin 2) 1 [1; 2; 3; 4] [-1; 1; -1; -1] == 1 # 2)%Q /\
     (weighted_error PosInf 1 [1; 2; 3; 4] [-1; 1; -1; -1] == 1 # 4)%Q /\
     (weighted_error PosInf 1 [1; 2; 3; 4] [-1; 1; -1; -1] < err)%Q) /\
  (valid_input 1 [5]%Q [-1]%Q /\
   exists err,
     _find_threshold 1 [5]%Q [-1]%Q = Ok (NegInf, err) /\
     (err == 1)%Q /\
     (weighted_error PosInf 1 [5] [-1] == 0)%Q).
Proof.
  split; (split; [solve_valid|]).
  - eexists. split; [vm_compute; reflexivity|].
    repeat split; reflexivity.
  - eexists. split; [vm_compute; reflexivity|].
    repeat split; reflexivity.
Qed.

(** C2, as worded, fails.  With [values = [1,2]], [labels = [-1,-1]],
    sign [+1], the normalised labels are [-1/2, -1/2], the loss array is
    [[1, 1/2]] and [np.argmin] selects the last index 1.  The last label is
    negative, the threshold returned is [+inf], and the error returned is
    [1/2 + (-1/2) = 0], the error of sending both samples to [-1]; adding
    the weight 1/2 of the excluded sample to the accumulated 1/2 would make
    it 1. *)
Lemma last_index_adds_weight_fails :
  ~ last_index_rule Qplus 1 [1; 2]%Q [-1; -1]%Q.
Proof.
  intro H.
  let r := eval vm_compute in (masked_loss 1 [1; 2]%Q [-1; -1]%Q) in
  match r with
  | Ok (?sv, ?sl, ?m) =>
      assert (E : masked_loss 1 [1; 2]%Q [-1; -1]%Q = Ok (sv, sl, m))
        by (vm_compute; reflexivity)
  end.
  specialize (H _ _ _ E). cbv zeta in H.
  destruct (H eq_refl ltac:(discriminate)) as [H1 _].
  destruct (H1 eq_refl) as [_ Hneg].
  destruct (Hneg ltac:(reflexivity)) as (err & Hft & He).
  vm_compute in Hft. injection Hft as <-.
  vm_compute in He. discriminate He.
Qed.

(** C2, amended.  When the selected index is the last position (and not
    index 0): for sign [+1] a positive last label gives the last value with
    the accumulated loss unchanged, and a negative one gives [+inf] with the
    weight of the last sample taken off the accumulated loss (the code adds
    the negative label); for sign [-1] a negative last label gives the last
    value with the loss unchanged, and a positive one gives [+inf] with the
    weight taken off (the code subtracts the positive label). *)
Theorem last_index_takes_weight_off sign values labels :
  valid_input sign values labels ->
  last_index_rule Qminus sign values labels.
Proof.
  intros Hvalid sv sl masked Hm index last_value last_label acc Hidx Hnz.
  destruct (valid_run Hvalid) as (sv' & sl' & loss & ift & masked' & R).
  pose proof (run_masked_loss R) as Hm'. rewrite Hm in Hm'.
  injection Hm' as <- <- <-.
  rewrite (run_result R). fold index.
  unfold select. rewrite (run_length_labels R), <- Hidx.
  assert (E0 : (index =? 0)%nat = false) by (apply Nat.eqb_neq; exact Hnz).
  rewrite E0, Nat.eqb_refl.
  fold last_value last_label acc.
  split; intros ->; simpl Z.eqb; cbv iota; split; intro Hl.
  - apply Qltb_lt in Hl. rewrite Hl. reflexivity.
  - assert (E : Qltb 0 last_label = false) by (apply Qltb_ge; lra).
    rewrite E. eexists. split; [reflexivity|].
    rewrite (Qabs_neg last_label) by lra. ring.
  - assert (E : Qltb 0 last_label = false) by (apply Qltb_ge; lra).
    rewrite E. reflexivity.
  - pose proof Hl as Hl'. apply Qltb_lt in Hl'. rewrite Hl'.
    eexists. split; [reflexivity|].
    rewrite (Qabs_pos last_label) by lra. ring.
Qed.

Lemma last_index_takes_weight_off_witness :
  valid_input 1 [1; 2]%Q [-1; -1]%Q /\
  last_index_rule Qminus 1 [1; 2]%Q [-1; -1]%Q.
Proof.
  assert (H : valid_input 1 [1; 2]%Q [-1; -1]%Q) by solve_valid.
  split; [exact H|].
  exact (last_index_takes_weight_off H).
Defined.

(** C3.  After [fit] on valid input the stored (feature, threshold, sign)
    is a tried candidate whose [_find_threshold] error is minimal among all
    (feature, sign) combinations: it is at most the error of every feature
    with sign [+1] and with sign [-1].  Any candidate evaluated against
    the initial best [(0, None, +inf, 1)] replaces it, so the stored
    threshold is never [None]. *)
Theorem fit_global_minimum self X y :
  valid_fit_input X y ->
  (forall cur_vec i sign thr err,
     _find_threshold sign cur_vec y = Ok (thr, err) ->
     try_candidate cur_vec y i best_init sign
     = Ok (i, Some thr, Fin err, sign)) /\
  exists j thr err s,
    fit_search X y = Ok (j, Some thr, Fin err, s) /\
    _fit self X y = Ok (mkStump (Some thr) (Some j) (Some s)) /\
    (j < n_features X)%nat /\ is_sign s /\
    _find_threshold s (feature X j) y = Ok (thr, err) /\
    forall j' s', (j' < n_features X)%nat -> is_sign s' ->
      exists thr' err',
        _find_threshold s' (feature X j') y = Ok (thr', err') /\
        (err <= err')%Q.
Proof.
  intro Hvalid. split.
  { intros cur_vec i sign thr err H. unfold try_candidate.
    rewrite H. reflexivity. }
  destruct (fit_search_minimum Hvalid)
    as (j & thr & err & s & Hfit & Hj & Hs & Hft & Hmin).
  exists j, thr, err, s.
  split; [exact Hfit|]. split.
  { unfold _fit. rewrite Hfit. reflexivity. }
  auto.
Qed.

Lemma fit_global_minimum_witness :
  valid_fit_input (Arr2 2 [[1; 7]; [2; 5]; [3; 8]; [4; 7]]%Q)
                  [-1; -2; 1; 1]%Q /\
  (forall cur_vec i sign thr err,
     _find_threshold sign cur_vec [-1; -2; 1; 1]%Q = Ok (thr, err) ->
     try_candidate cur_vec [-1; -2; 1; 1]%Q i best_init sign
     = Ok (i, Some thr, Fin err, sign)) /\
  exists j thr err s,
    fit_search (Arr2 2 [[1; 7]; [2; 5]; [3; 8]; [4; 7]]%Q) [-1; -2; 1; 1]%Q
    = Ok (j, Some thr, Fin err, s) /\
    _fit __init__ (Arr2 2 [[1; 7]; [2; 5]; [3; 8]; [4; 7]]%Q)
         [-1; -2; 1; 1]%Q
    = Ok (mkStump (Some thr) (Some j) (Some s)) /\
    (j < 2)%nat /\ is_sign s /\
    _find_threshold s
      (feature (Arr2 2 [[1; 7]; [2; 5]; [3; 8]; [4; 7]]%Q) j)
      [-1; -2; 1; 1]%Q = Ok (thr, err) /\
    forall j' s', (j' < 2)%nat -> is_sign s' ->
      exists thr' err',
        _find_threshold s'
          (feature (Arr2 2 [[1; 7]; [2; 5]; [3; 8]; [4; 7]]%Q) j')
          [-1; -2; 1; 1]%Q = Ok (thr', err') /\
        (err <= err')%Q.
Proof.
  assert (H : valid_fit_input (Arr2 2 [[1; 7]; [2; 5]; [3; 8]; [4; 7]]%Q)
                              [-1; -2; 1; 1]%Q).
  { unfold valid_fit_input. simpl.
    repeat split; try reflexivity; try discriminate; try lia.
    repeat constructor. }
  split; [exact H|].
  exact (fit_global_minimum __init__ H).
Defined.

(** C4.  For a fitted model and a 2-D input whose columns include the
    fitted feature index, [predict] returns one response per row: the
    fitted sign where the row's feature value reaches the threshold, the
    opposite sign elsewhere. *)
Theorem predict_rule self j threshold sign ncols rows :
  fitted self j threshold sign ->
  (j < ncols)%nat ->
  exists out,
    _predict self (Arr2 ncols rows) = Ok out /\
    length out = length rows /\
    forall i, (i < length rows)%nat ->
      let x := nth j (nth i rows []) 0%Q in
      (reaches x threshold -> nth i out 0%Z = sign) /\
      (~ reaches x threshold -> nth i out 0%Z = (- sign)%Z).
Proof.
  intros -> Hj. unfold _predict, getcol. simpl.
  apply Nat.ltb_lt in Hj. rewrite Hj. cbn [bind].
  eexists. split; [reflexivity|].
  unfold np.where_, column. rewrite !length_map. split; [reflexivity|].
  intros i Hi. set (x := nth j (nth i rows []) 0%Q). rewrite map_map.
  set (f := fun r : list Q => _).
  rewrite (nth_indep _ 0%Z (f [])) by (rewrite length_map; exact Hi).
  rewrite map_nth. unfold f. fold x.
  destruct (fge (Fin x) threshold) eqn:E.
  - apply fge_reaches in E. tauto.
  - split; [|reflexivity]. intro H. apply fge_reaches in H. congruence.
Qed.

Lemma predict_rule_witness :
  fitted (mkStump (Some (Fin 3)) (Some 1%nat) (Some 1%Z)) 1 (Fin 3) 1 /\
  (1 < 2)%nat /\
  exists out,
    _predict (mkStump (Some (Fin 3)) (Some 1%nat) (Some 1%Z))
             (Arr2 2 [[0; 1]; [0; 3]; [9; 4]; [9; 2]]%Q) = Ok out /\
    length out = 4%nat /\
    forall i, (i < 4)%nat ->
      let x := nth 1 (nth i [[0; 1]; [0; 3]; [9; 4]; [9; 2]]%Q []) 0%Q in
      (reaches x (Fin 3) -> nth i out 0%Z = 1%Z) /\
      (~ reaches x (Fin 3) -> nth i out 0%Z = (- 1)%Z).
Proof.
  split; [reflexivity|]. split; [lia|].
  apply (@predict_rule _ 1 (Fin 3) 1 2
           [[0; 1]; [0; 3]; [9; 4]; [9; 2]]%Q); [reflexivity | lia].
Defined.

(** In exact arithmetic the error returned on valid input is a fraction
    of the normalised total weight: it lies in [[0, 1]]. *)
Lemma exact_error_in_unit_interval sign values labels :
  valid_input sign values labels ->
  exists thr err,
    _find_threshold sign values labels = Ok (thr, err) /\
    (0 <= err <= 1)%Q.
Proof.
  intro Hvalid.
  destruct (valid_run Hvalid) as (sv & sl & loss & ift & masked & R).
  destruct Hvalid as (Hlen & Hne & Hpos & Hsign).
  assert (Hvalid : valid_input sign values labels) by (repeat split; auto).
  rewrite (run_result R).
  destruct (run_argmin_first_time R) as (Hidx & _ & Hmasked).
  set (index := np.argmin masked) in *.
  pose proof (run_loss_range R Hidx) as Hrange.
  pose proof (run_exclude_all_range R) as Hall.
  unfold select. fold index. rewrite (run_length_labels R).
  destruct (index =? 0)%nat eqn:E0.
  { apply Nat.eqb_eq in E0. rewrite E0 in Hmasked, Hrange.
    do 2 eexists. split; [reflexivity|]. rewrite Hmasked. exact Hrange. }
  destruct (index =? length values - 1)%nat eqn:E1.
  - apply Nat.eqb_eq in E1. rewrite <- E1 in Hall.
    destruct (sign =? 1)%Z eqn:Es.
    + apply Z.eqb_eq in Es. subst sign.
      change (inject_Z 1) with 1%Q in Hall.
      destruct (Qltb 0 (nth index sl 0%Q));
        do 2 eexists; (split; [reflexivity|]); rewrite Hmasked; lra.
    + apply Z.eqb_neq in Es. destruct Hsign as [->| ->]; [congruence|].
      change (inject_Z (-1)) with (-1 # 1)%Q in Hall.
      destruct (Qltb 0 (nth index sl 0%Q));
        do 2 eexists; (split; [reflexivity|]); rewrite Hmasked; lra.
  - do 2 eexists. split; [reflexivity|]. rewrite Hmasked. exact Hrange.
Qed.

(** C5.  The error returned can leave [[0, 1]].  On the float arrays
    [values = [1,2,3]], [labels = [-2,-1,-2]] (three samples, total weight
    5) with sign [+1], the normalised labels are the floats nearest to
    -0.4, -0.2, -0.4, the loss array is 1, 0.6, 0.39999999999999997 (the
    last sum is rounded down), and the last-index branch returns [+inf]
    with the error 0.39999999999999997 + (-0.4), which is -2^-54: a
    negative number.  With exact numbers the same run returns the error 0,
    the error of the threshold [+inf] on these labels. *)
Theorem find_threshold_negative_error :
  (valid_input 1 [1; 2; 3]%Q [-2; -1; -2]%Q /\
   binary64.np.sum (binary64.np.abs [-2; -1; -2]%float) = 5%float) /\
  (exists err,
     binary64._find_threshold 1 [1; 2; 3]%float [-2; -1; -2]%float
     = Ok (infinity, err) /\
     err = (-0x1p-54)%float /\
     PrimFloat.ltb err 0 = true) /\
  (exists err,
     _find_threshold 1 [1; 2; 3]%Q [-2; -1; -2]%Q = Ok (PosInf, err) /\
     (err == 0)%Q /\
     (weighted_error PosInf 1 [1; 2; 3] [-2; -1; -2] == 0)%Q).
Proof.
  split; [split; [solve_valid | vm_compute; reflexivity]|]. split.
  - eexists. split; [vm_compute; reflexivity|].
    split; vm_compute; reflexivity.
  - eexists. split; [vm_compute; reflexivity|].
    split; reflexivity.
Qed.

(** C6.  On valid input the index [np.argmin] selects is never inside a
    run of equal values: it is index 0 or an index whose sorted value
    differs from the one before it.  The positions inside a run hold the
    sentinel [np.max(loss) + 1], which is strictly above the entry at
    index 0. *)
Theorem argmin_never_mid_tie sign values labels :
  valid_input sign values labels ->
  exists svalues slabels loss is_first_time masked,
    sweep sign svalues slabels = Ok (loss, is_first_time) /\
    masked = mask_ties loss is_first_time /\
    masked_loss sign values labels = Ok (svalues, slabels, masked) /\
    (np.argmin masked < length values)%nat /\
    first_time svalues (np.argmin masked) /\
    forall i, (i < length values)%nat -> ~ first_time svalues i ->
      nth i masked 0%Q = (np.max loss + 1)%Q /\
      (nth 0 masked 0 < nth i masked 0)%Q.
Proof.
  intro Hvalid.
  destruct (valid_run Hvalid) as (sv & sl & loss & ift & masked & R).
  destruct Hvalid as (Hlen & Hne & Hpos & Hsign).
  exists sv, sl, loss, ift, masked.
  destruct (run_argmin_first_time R) as (Hidx & Hfirst & _).
  split; [apply R|]. split; [apply R|]. split; [apply R|].
  split; [exact Hidx|]. split; [exact Hfirst|].
  intros i Hi Hmid.
  assert (Hz : (0 < length values)%nat) by (apply (run_pos R)).
  rewrite (run_masked_nth R Hi), (run_masked_nth R Hz).
  destruct (run_first_time R Hi) as [[_ F]|[E _]]; [contradiction|].
  destruct (run_first_time R Hz) as [[E0 _]|[_ F0]];
    [|exfalso; apply F0; left; reflexivity].
  rewrite E, E0. simpl negb. cbv iota.
  split; [reflexivity|]. apply (run_sentinel R Hz).
Qed.

Lemma argmin_never_mid_tie_witness :
  valid_input 1 [2; 1; 2; 2]%Q [1; -1; 1; -1]%Q /\
  exists svalues slabels loss is_first_time masked,
    sweep 1 svalues slabels = Ok (loss, is_first_time) /\
    masked = mask_ties loss is_first_time /\
    masked_loss 1 [2; 1; 2; 2]%Q [1; -1; 1; -1]%Q
    = Ok (svalues, slabels, masked) /\
    (np.argmin masked < 4)%nat /\
    first_time svalues (np.argmin masked) /\
    forall i, (i < 4)%nat -> ~ first_time svalues i ->
      nth i masked 0%Q = (np.max loss + 1)%Q /\
      (nth 0 masked 0 < nth i masked 0)%Q.
Proof.
  assert (H : valid_input 1 [2; 1; 2; 2]%Q [1; -1; 1; -1]%Q) by solve_valid.
  split; [exact H|].
  exact (argmin_never_mid_tie H).
Defined.

(** C7.  Fitting the separable data [values = [1,2,3,4]],
    [labels = [-1,-1,1,1]], as a vector or as a one-column matrix, finds
    error 0 and stores threshold 3 with sign [+1]. *)
Theorem fit_separable_example :
  (exists err,
     fit_search (Arr1 [1; 2; 3; 4]%Q) [-1; -1; 1; 1]%Q
     = Ok (0%nat, Some (Fin 3), Fin err, 1%Z) /\ (err == 0)%Q) /\
  _fit __init__ (Arr1 [1; 2; 3; 4]%Q) [-1; -1; 1; 1]%Q
  = Ok (mkStump (Some (Fin 3)) (Some 0%nat) (Some 1%Z)) /\
  _fit __init__ (Arr2 1 [[1]; [2]; [3]; [4]]%Q) [-1; -1; 1; 1]%Q
  = Ok (mkStump (Some (Fin 3)) (Some 0%nat) (Some 1%Z)).
Proof.
  split; [|split].
  - eexists. split; [vm_compute; reflexivity | reflexivity].
  - vm_compute. reflexivity.
  - vm_compute. reflexivity.
Qed.

(** C9.  On valid input a finite threshold returned by [_find_threshold]
    is an entry of the input [values]; the only other thresholds returned
    are the two infinities. *)
Theorem finite_threshold_is_input_value sign values labels :
  valid_input sign values labels ->
  exists thr err,
    _find_threshold sign values labels = Ok (thr, err) /\
    match thr with
    | Fin v => In v values
    | NegInf | PosInf => True
    end.
Proof.
  intro Hvalid.
  destruct (valid_run Hvalid) as (sv & sl & loss & ift & masked & R).
  destruct Hvalid as (Hlen & Hne & Hpos & Hsign).
  rewrite (run_result R).
  destruct (run_argmin_first_time R) as (Hidx & _ & _).
  set (index := np.argmin masked) in *.
  assert (Hin : In (nth index sv 0%Q) values).
  { apply (Permutation_in _ (run_values R)), nth_In.
    rewrite (run_length_values R). exact Hidx. }
  unfold select. fold index.
  repeat match goal with
  | |- context [if ?c then _ else _] => destruct c
  end; do 2 eexists; (split; [reflexivity|]); simpl; auto.
Qed.

Lemma finite_threshold_is_input_value_witness :
  valid_input 1 [4; 2; 3; 1]%Q [1; -1; 1; -1]%Q /\
  exists thr err,
    _find_threshold 1 [4; 2; 3; 1]%Q [1; -1; 1; -1]%Q = Ok (thr, err) /\
    match thr with
    | Fin v => In v [4; 2; 3; 1]%Q
    | NegInf | PosInf => True
    end.
Proof.
  assert (H : valid_input 1 [4; 2; 3; 1]%Q [1; -1; 1; -1]%Q) by solve_valid.
  split; [exact H|].
  exact (finite_threshold_is_input_value H).
Defined.

(** C10.  [_predict] indexes [X[:, j_]]: on a 1-D array that raises
    [IndexError], whatever feature index and parameters the model holds.
    [_fit] does accept a 1-D feature vector, as the
    single column of index 0, and the model it fits cannot predict on that
    same vector; on the vector reshaped to one column it can. *)
Theorem predict_needs_two_dimensions self a y :
  valid_fit_input (Arr1 a) y ->
  (forall thr j s,
     _predict (mkStump thr (Some j) s) (Arr1 a) = Raise IndexError) /\
  exists thr s,
    _fit self (Arr1 a) y = Ok (mkStump (Some thr) (Some 0%nat) (Some s)) /\
    _predict (mkStump (Some thr) (Some 0%nat) (Some s)) (Arr1 a)
    = Raise IndexError /\
    _predict (mkStump (Some thr) (Some 0%nat) (Some s))
             (Arr2 1 (map (fun v => [v]) a))
    = Ok (map (fun v => if fge (Fin v) thr then s else (- s)%Z) a).
Proof.
  intro Hvalid. split.
  { intros thr j s. reflexivity. }
  destruct (fit_search_minimum Hvalid)
    as (j & thr & err & s & Hfit & Hj & _).
  simpl in Hj. assert (j = 0%nat) by lia. subst j.
  exists thr, s. split; [|split].
  - unfold _fit. rewrite Hfit. reflexivity.
  - reflexivity.
  - unfold _predict, getcol, np.where_, column. simpl.
    rewrite !map_map. reflexivity.
Qed.

Lemma predict_needs_two_dimensions_witness :
  valid_fit_input (Arr1 [1; 2; 3; 4]%Q) [-1; -1; 1; 1]%Q /\
  (forall thr j s,
     _predict (mkStump thr (Some j) s) (Arr1 [1; 2; 3; 4]%Q)
     = Raise IndexError) /\
  exists thr s,
    _fit __init__ (Arr1 [1; 2; 3; 4]%Q) [-1; -1; 1; 1]%Q
    = Ok (mkStump (Some thr) (Some 0%nat) (Some s)) /\
    _predict (mkStump (Some thr) (Some 0%nat) (Some s))
             (Arr1 [1; 2; 3; 4]%Q)
    = Raise IndexError /\
    _predict (mkStump (Some thr) (Some 0%nat) (Some s))
             (Arr2 1 (map (fun v => [v]) [1; 2; 3; 4]%Q))
    = Ok (map (fun v => if fge (Fin v) thr then s else (- s)%Z)
              [1; 2; 3; 4]%Q).
Proof.
  assert (H : valid_fit_input (Arr1 [1; 2; 3; 4]%Q) [-1; -1; 1; 1]%Q).
  { unfold valid_fit_input. simpl.
    repeat split; try reflexivity; discriminate. }
  split; [exact H|].
  exact (predict_needs_two_dimensions __init__ H).
Defined.

(** * Further properties of the code *)

(** ** The threshold search *)

Section RunCuts.

Variable sign : Z.
Variables values labels : list Q.
Variables svalues slabels loss is_first_time masked : list Q.
Hypothesis R :
  run sign values labels svalues slabels loss is_first_time masked.

(** At the selected index the masked array still holds the loss. *)
Lemma run_selected_loss :
  nth (np.argmin masked) masked 0%Q = nth (np.argmin masked) loss 0%Q.
Proof.
  apply (run_argmin_first_time R).
Qed.

(** No cut that starts a run of equal values has a smaller loss than the
    selected one. *)
Lemma run_cut_not_better i :
  (i < length values)%nat -> first_time svalues i ->
  (nth (np.argmin masked) loss 0 <= nth i loss 0)%Q.
Proof.
  intros Hi Hf.
  destruct (run_argmin R) as (_ & Hmin & _).
  rewrite (run_masked_length R) in Hmin.
  rewrite <- run_selected_loss, <- (run_first_time_loss R Hi Hf).
  apply Hmin. exact Hi.
Qed.

(** A cut before the selected index that starts a run of equal values has
    a strictly larger loss: [np.argmin] takes the first minimum. *)
Lemma run_earlier_cut_worse i :
  (i < np.argmin masked)%nat -> first_time svalues i ->
  (nth (np.argmin masked) loss 0 < nth i loss 0)%Q.
Proof.
  intros Hi Hf.
  destruct (run_argmin R) as (Hlt & _ & Hfirst).
  rewrite (run_masked_length R) in Hlt.
  rewrite <- run_selected_loss.
  rewrite <- (run_first_time_loss R (i := i)) by (auto; lia).
  apply Hfirst. exact Hi.
Qed.

End RunCuts.

(** X2.  The loop of lines 128-131 marks the cuts: on arrays of one length
    [n >= 1] it leaves two arrays of length [n], and [is_first_time] is 1
    exactly at index 0 and where a value differs from the one before it,
    and 0 inside a run of equal values. *)
Theorem sweep_marks_run_starts sign values labels :
  length values = length labels -> values <> [] ->
  exists loss is_first_time,
    sweep sign values labels = Ok (loss, is_first_time) /\
    length loss = length values /\
    length is_first_time = length values /\
    forall i, (i < length values)%nat ->
      (first_time values i -> nth i is_first_time 0%Q = 1%Q) /\
      (~ first_time values i -> nth i is_first_time 0%Q = 0%Q).
Proof.
  intros Hlen Hne.
  destruct (@sweep_ok sign values labels Hlen Hne)
    as ([loss ift] & Hsw & Hinv).
  exists loss, ift. split; [exact Hsw|].
  pose proof Hinv as (Hl1 & Hl2 & _ & H0 & _ & Hift & _).
  cbn [fst snd] in *.
  split; [exact Hl1|]. split; [exact Hl2|].
  intros i Hi.
  destruct i as [|i].
  - split; [intros _; exact H0|].
    intro H. exfalso. apply H. left. reflexivity.
  - rewrite Hift by lia.
    replace (S i - 1)%nat with i by lia.
    destruct (Qeq_bool (nth i values 0%Q) (nth (S i) values 0%Q)) eqn:E;
      simpl.
    + apply Qeq_bool_iff in E. split; [|reflexivity].
      intros [H|[_ H]]; [lia|].
      replace (S i - 1)%nat with i in H by lia. contradiction.
    + apply Qeq_bool_false in E. split; [reflexivity|].
      intro H. exfalso. apply H. right. split; [lia|].
      replace (S i - 1)%nat with i by lia. exact E.
Qed.

Lemma sweep_marks_run_starts_witness :
  length [1; 1; 2]%Q = length [1 # 4; -1 # 4; 1 # 2]%Q /\
  [1; 1; 2]%Q <> [] /\
  exists loss is_first_time,
    sweep 1 [1; 1; 2]%Q [1 # 4; -1 # 4; 1 # 2]%Q
    = Ok (loss, is_first_time) /\
    length loss = 3%nat /\
    length is_first_time = 3%nat /\
    forall i, (i < 3)%nat ->
      (first_time [1; 1; 2]%Q i -> nth i is_first_time 0%Q = 1%Q) /\
      (~ first_time [1; 1; 2]%Q i -> nth i is_first_time 0%Q = 0%Q).
Proof.
  assert (Hl : length [1; 1; 2]%Q = length [1 # 4; -1 # 4; 1 # 2]%Q)
    by reflexivity.
  assert (Hn : [1; 1; 2]%Q <> []) by discriminate.
  split; [exact Hl|]. split; [exact Hn|].
  exact (@sweep_marks_run_starts 1 _ _ Hl Hn).
Defined.

(** X3.  Ties between cuts go to the first one: on valid input the index
    [np.argmin] selects starts a run of equal values, no index that starts
    a run has a smaller entry in the loss array of the sweep, and every such
    index before the selected one has a strictly larger entry.  So among
    the cuts the sweep rates equal, the one with the smallest threshold is
    taken. *)
Theorem argmin_takes_first_best_cut sign values labels :
  valid_input sign values labels ->
  exists svalues slabels loss is_first_time masked,
    sweep sign svalues slabels = Ok (loss, is_first_time) /\
    masked_loss sign values labels = Ok (svalues, slabels, masked) /\
    (np.argmin masked < length values)%nat /\
    first_time svalues (np.argmin masked) /\
    (forall i, (i < length values)%nat -> first_time svalues i ->
       (nth (np.argmin masked) loss 0 <= nth i loss 0)%Q) /\
    (forall i, (i < np.argmin masked)%nat -> first_time svalues i ->
       (nth (np.argmin masked) loss 0 < nth i loss 0)%Q).
Proof.
  intro Hvalid.
  destruct (valid_run Hvalid) as (sv & sl & loss & ift & masked & R).
  exists sv, sl, loss, ift, masked.
  destruct (run_argmin_first_time R) as (Hidx & Hfirst & _).
  split; [apply R|]. split; [apply R|].
  split; [exact Hidx|]. split; [exact Hfirst|]. split.
  - intros i Hi Hf. exact (run_cut_not_better R Hi Hf).
  - intros i Hi Hf. exact (run_earlier_cut_worse R Hi Hf).
Qed.

Lemma argmin_takes_first_best_cut_witness :
  valid_input 1 [1; 2; 3; 4]%Q [-1; 1; -1; 1]%Q /\
  exists svalues slabels loss is_first_time masked,
    sweep 1 svalues slabels = Ok (loss, is_first_time) /\
    masked_loss 1 [1; 2; 3; 4]%Q [-1; 1; -1; 1]%Q
    = Ok (svalues, slabels, masked) /\
    (np.argmin masked < 4)%nat /\
    first_time svalues (np.argmin masked) /\
    (forall i, (i < 4)%nat -> first_time svalues i ->
       (nth (np.argmin masked) loss 0 <= nth i loss 0)%Q) /\
    (forall i, (i < np.argmin masked)%nat -> first_time svalues i ->
       (nth (np.argmin masked) loss 0 < nth i loss 0)%Q).
Proof.
  assert (H : valid_input 1 [1; 2; 3; 4]%Q [-1; 1; -1; 1]%Q) by solve_valid.
  split; [exact H|].
  exact (argmin_takes_first_best_cut H).
Defined.

Lemma find_threshold_ill_formed sign values labels :
  length values <> length labels \/ (values = [] /\ labels = []) ->
  _find_threshold sign values labels
  = Raise (if (length values =? length labels)%nat
           then IndexError else ValueError).
Proof.
  intros [H|[-> ->]].
  - unfold _find_threshold, masked_loss, sorted_rows, np.c_.
    apply Nat.eqb_neq in H. rewrite H. reflexivity.
  - reflexivity.
Qed.

(** X4.  Ill-formed arguments raise: arrays of different lengths cannot
    be paired by [np.c_] ([ValueError]), and on two empty arrays the write
    [loss[0] = ...] is out of bounds ([IndexError]). *)
Theorem find_threshold_raises sign values labels :
  length values <> length labels \/ (values = [] /\ labels = []) ->
  _find_threshold sign values labels
  = Raise (if (length values =? length labels)%nat
           then IndexError else ValueError).
Proof.
  apply find_threshold_ill_formed.
Qed.

Lemma find_threshold_raises_witness :
  _find_threshold 1 [1; 2]%Q [1]%Q = Raise ValueError /\
  _find_threshold 1 [] [] = Raise IndexError.
Proof.
  split.
  - apply (@find_threshold_raises 1 [1; 2]%Q [1]%Q).
    left. simpl. discriminate.
  - apply (@find_threshold_raises 1 [] []). right. split; reflexivity.
Defined.

(** ** The fitted stump *)

Lemma is_sign_opp s : is_sign s -> is_sign (- s).
Proof.
  intros [-> | ->]; [right | left]; reflexivity.
Qed.

(** X7.  Fit and predict compose: after [_fit] on a valid matrix,
    [_predict] on any matrix with the same number of columns returns
    without raising, one response per row, each of them -1 or +1. *)
Theorem fit_then_predict self ncols rows y :
  valid_fit_input (Arr2 ncols rows) y ->
  exists model,
    _fit self (Arr2 ncols rows) y = Ok model /\
    forall rows', exists out,
      _predict model (Arr2 ncols rows') = Ok out /\
      length out = length rows' /\
      Forall is_sign out.
Proof.
  intro Hvalid.
  destruct (fit_search_minimum Hvalid)
    as (j & thr & err & s & Hfit & Hj & Hs & _).
  simpl in Hj.
  exists (mkStump (Some thr) (Some j) (Some s)). split.
  { unfold _fit. rewrite Hfit. reflexivity. }
  intro rows'. unfold _predict, getcol. cbn [j_ threshold_ sign_].
  apply Nat.ltb_lt in Hj. rewrite Hj. cbn [bind].
  eexists. split; [reflexivity|].
  unfold np.where_, column. rewrite !length_map. split; [reflexivity|].
  apply Forall_forall. intros z Hz.
  apply in_map_iff in Hz. destruct Hz as (v & <- & _).
  destruct (fge (Fin v) thr); [exact Hs | apply is_sign_opp; exact Hs].
Qed.

Lemma fit_then_predict_witness :
  valid_fit_input (Arr2 2 [[1; 7]; [2; 5]; [3; 8]; [4; 7]]%Q)
                  [-1; -2; 1; 1]%Q /\
  exists model,
    _fit __init__ (Arr2 2 [[1; 7]; [2; 5]; [3; 8]; [4; 7]]%Q)
         [-1; -2; 1; 1]%Q = Ok model /\
    forall rows', exists out,
      _predict model (Arr2 2 rows') = Ok out /\
      length out = length rows' /\
      Forall is_sign out.
Proof.
  assert (H : valid_fit_input (Arr2 2 [[1; 7]; [2; 5]; [3; 8]; [4; 7]]%Q)
                              [-1; -2; 1; 1]%Q).
  { unfold valid_fit_input. simpl.
    repeat split; try reflexivity; try discriminate; try lia.
    repeat constructor. }
  split; [exact H|].
  exact (fit_then_predict __init__ H).
Defined.

(** X8.  A matrix without columns is fitted without complaint: the loop
    over the features does not run, no argument is looked at, and the
    model keeps the initial best: feature 0, sign [+1] and the threshold
    [None].  That model predicts nothing: [_predict] raises on every input
    with at least one sample ([IndexError] where column 0 does not exist,
    [TypeError] where its first entry meets the threshold [None]), and on
    a matrix without rows it returns the empty array. *)
Theorem fit_without_columns self rows y :
  _fit self (Arr2 0 rows) y = Ok (mkStump None (Some 0%nat) (Some 1%Z)) /\
  forall X,
    _predict (mkStump None (Some 0%nat) (Some 1%Z)) X
    = match X with
      | Arr1 _ => Raise IndexError
      | Arr2 ncols rows' =>
          if (0 <? ncols)%nat
          then match rows' with
               | [] => Ok []
               | _ :: _ => Raise TypeError
               end
          else Raise IndexError
      end.
Proof.
  split; [reflexivity|].
  intros [a|ncols rows']; [reflexivity|].
  unfold _predict, getcol. cbn [j_ threshold_ sign_].
  destruct (0 <? ncols)%nat; [|reflexivity].
  destruct rows'; reflexivity.
Qed.

(** X17.  A model that was never fitted cannot predict: with the three
    parameters [None] that [__init__] sets, [_predict] raises [TypeError]
    on every array, at the comparison with the threshold [None] or, when
    the array has no entries, at [-self.sign_]. *)
Theorem predict_before_fit_raises X :
  _predict __init__ X = Raise TypeError.
Proof.
  reflexivity.
Qed.

Lemma first_candidate_raises X y e :
  (1 <= n_features X)%nat ->
  _find_threshold (-1) (feature X 0) y = Raise e ->
  fit_search X y = Raise e.
Proof.
  intros Hd Hft. destruct X as [a|ncols rows]; simpl in *.
  - unfold try_candidate. rewrite Hft. reflexivity.
  - destruct ncols as [|d]; [lia|].
    simpl. unfold try_candidate at 1. rewrite Hft. reflexivity.
Qed.

(** X9.  [_fit] passes on what the first search raises: with at least one
    feature, [ValueError] when the number of samples differs from the
    number of labels and [IndexError] when there are no samples at all.
    Nothing is stored in that case. *)
Theorem fit_raises self X y :
  (1 <= n_features X)%nat ->
  n_samples X <> length y \/ (n_samples X = 0%nat /\ y = []) ->
  _fit self X y
  = Raise (if (n_samples X =? length y)%nat
           then IndexError else ValueError).
Proof.
  intros Hd Hbad.
  assert (Hlen : length (feature X 0) = n_samples X).
  { destruct X as [a|ncols rows]; simpl; [reflexivity|].
    unfold column. apply length_map. }
  unfold _fit.
  rewrite (@first_candidate_raises X y
             (if (n_samples X =? length y)%nat
              then IndexError else ValueError) Hd); [reflexivity|].
  rewrite <- Hlen in *. apply find_threshold_ill_formed.
  destruct Hbad as [H|[H ->]]; [left; exact H|].
  right. split; [|reflexivity].
  destruct (feature X 0); [reflexivity | discriminate].
Qed.

Lemma fit_raises_witness :
  _fit __init__ (Arr2 2 [[1; 7]; [2; 5]]%Q) [1; -1; 1]%Q = Raise ValueError
  /\ _fit __init__ (Arr1 []) [] = Raise IndexError.
Proof.
  split.
  - apply (@fit_raises __init__ (Arr2 2 [[1; 7]; [2; 5]]%Q) [1; -1; 1]%Q).
    + simpl. lia.
    + left. simpl. lia.
  - apply (@fit_raises __init__ (Arr1 []) []).
    + simpl. lia.
    + right. split; reflexivity.
Defined.

Section FirstMinimum.

Variable col : nat -> list Q.
Variable y : list Q.

Lemma seen_first_min_step C best i s :
  seen_first_min col y C best ->
  (exists r, _find_threshold s (col i) y = Ok r) ->
  exists best',
    try_candidate (col i) y i best s = Ok best' /\
    seen_first_min col y (C ++ [(i, s)]) best'.
Proof.
  intros Hseen [[thr err] Hft]. unfold try_candidate. rewrite Hft.
  cbn [bind].
  destruct Hseen
    as [[-> ->]|(i0 & s0 & t0 & e0 & bef & aft & -> & -> & Hft0 & Hb & Ha)].
  - simpl. eexists. split; [reflexivity|]. right.
    exists i, s, thr, err, [], [].
    repeat split; auto; intros i' s' [].
  - cbn [flt]. destruct (Qltb err e0) eqn:E.
    + apply Qltb_lt in E. eexists. split; [reflexivity|]. right.
      exists i, s, thr, err, (bef ++ (i0, s0) :: aft), [].
      repeat split; auto; [|intros i' s' []].
      intros i' s' H. apply in_app_or in H. destruct H as [H|[H|H]].
      * destruct (Hb _ _ H) as (t' & e' & Hf & Hlt).
        exists t', e'. split; auto. lra.
      * inversion H; subst. exists t0, e0. split; auto.
      * destruct (Ha _ _ H) as (t' & e' & Hf & Hle).
        exists t', e'. split; auto. lra.
    + apply Qltb_ge in E. eexists. split; [reflexivity|]. right.
      exists i0, s0, t0, e0, bef, (aft ++ [(i, s)]).
      repeat split; auto.
      * rewrite <- app_assoc. reflexivity.
      * intros i' s' H. apply in_app_or in H. destruct H as [H|[H|[]]].
        -- apply Ha. exact H.
        -- inversion H; subst. exists thr, err. split; assumption.
Qed.

Lemma seen_first_min_signs C best i :
  seen_first_min col y C best ->
  total_at col y i ->
  exists best',
    for_each [(-1)%Z; 1%Z] (try_candidate (col i) y i) best = Ok best' /\
    seen_first_min col y (C ++ candidates [i]) best'.
Proof.
  intros Hseen Htot. cbn [for_each].
  destruct (seen_first_min_step i (-1)%Z Hseen) as (b1 & E1 & H1).
  { apply Htot. right. reflexivity. }
  destruct (seen_first_min_step i 1%Z H1) as (b2 & E2 & H2).
  { apply Htot. left. reflexivity. }
  rewrite E1. cbn [bind]. rewrite E2. cbn [bind].
  exists b2. split; [reflexivity|].
  rewrite <- app_assoc in H2. exact H2.
Qed.

Lemma seen_first_min_features L : forall C best,
  seen_first_min col y C best ->
  (forall i, In i L -> total_at col y i) ->
  exists best',
    for_each L
      (fun best i =>
         let cur_vec := col i in
         for_each [(-1)%Z; 1%Z] (try_candidate cur_vec y i) best)
      best = Ok best' /\
    seen_first_min col y (C ++ candidates L) best'.
Proof.
  induction L as [|i L IH]; intros C best Hseen Htot.
  - exists best. split; [reflexivity|].
    unfold candidates. simpl. rewrite app_nil_r. exact Hseen.
  - destruct (seen_first_min_signs (i := i) Hseen) as (b1 & E1 & H1).
    { apply Htot. left. reflexivity. }
    destruct (IH _ _ H1) as (b2 & E2 & H2).
    { intros k Hk. apply Htot. right. exact Hk. }
    exists b2. rewrite for_each_cons. cbv beta zeta. rewrite E1.
    cbn [bind].
    split; [exact E2|].
    rewrite <- app_assoc in H2. exact H2.
Qed.

End FirstMinimum.

(** X10.  Ties between candidates go to the first one tried: [_fit]
    replaces the running best only on a strictly smaller error, so every
    (feature, sign) tried before the stored one has a strictly larger
    error, and none tried after it has a smaller one.  The order is
    feature by feature, sign -1 before sign +1. *)
Theorem fit_keeps_first_minimum self X y :
  valid_fit_input X y ->
  exists j thr err s before after,
    _fit self X y = Ok (mkStump (Some thr) (Some j) (Some s)) /\
    candidates (seq 0 (n_features X)) = before ++ (j, s) :: after /\
    _find_threshold s (feature X j) y = Ok (thr, err) /\
    (forall j' s', In (j', s') before ->
       exists thr' err',
         _find_threshold s' (feature X j') y = Ok (thr', err') /\
         (err < err')%Q) /\
    (forall j' s', In (j', s') after ->
       exists thr' err',
         _find_threshold s' (feature X j') y = Ok (thr', err') /\
         (err <= err')%Q).
Proof.
  intro Hvalid.
  assert (H0 : seen_first_min (feature X) y [] best_init) by (left; auto).
  assert (Hseen : exists best,
            fit_search X y = Ok best /\
            seen_first_min (feature X) y
              (candidates (seq 0 (n_features X))) best).
  { destruct X as [a|ncols rows].
    - destruct (seen_first_min_signs (i := 0%nat) H0) as (b & E & H).
      { apply feature_total. exact Hvalid. }
      exists b. split; [exact E | exact H].
    - destruct (seen_first_min_features (seq 0 ncols) H0) as (b & E & H).
      { intros i _. apply feature_total. exact Hvalid. }
      exists b. split; [exact E | exact H]. }
  destruct Hseen as (best & Hfit & [[Hnil _]|Hbest]).
  - exfalso. destruct Hvalid as (_ & _ & HX).
    assert (Hpos : (0 < n_features X)%nat)
      by (destruct X; simpl in *; lia).
    destruct (n_features X); [lia | discriminate Hnil].
  - destruct Hbest
      as (j & s & thr & err & bef & aft & -> & HC & Hft & Hb & Ha).
    exists j, thr, err, s, bef, aft. split.
    { unfold _fit. rewrite Hfit. reflexivity. }
    auto.
Qed.

Lemma fit_keeps_first_minimum_witness :
  valid_fit_input (Arr2 2 [[1; 3]; [2; 4]]%Q) [-1; 1]%Q /\
  exists j thr err s before after,
    _fit __init__ (Arr2 2 [[1; 3]; [2; 4]]%Q) [-1; 1]%Q
    = Ok (mkStump (Some thr) (Some j) (Some s)) /\
    candidates (seq 0 2) = before ++ (j, s) :: after /\
    _find_threshold s (feature (Arr2 2 [[1; 3]; [2; 4]]%Q) j) [-1; 1]%Q
    = Ok (thr, err) /\
    (forall j' s', In (j', s') before ->
       exists thr' err',
         _find_threshold s' (feature (Arr2 2 [[1; 3]; [2; 4]]%Q) j')
                         [-1; 1]%Q = Ok (thr', err') /\
         (err < err')%Q) /\
    (forall j' s', In (j', s') after ->
       exists thr' err',
         _find_threshold s' (feature (Arr2 2 [[1; 3]; [2; 4]]%Q) j')
                         [-1; 1]%Q = Ok (thr', err') /\
         (err <= err')%Q).
Proof.
  assert (H : valid_fit_input (Arr2 2 [[1; 3]; [2; 4]]%Q) [-1; 1]%Q).
  { unfold valid_fit_input. simpl.
    repeat split; try reflexivity; try discriminate; try lia.
    repeat constructor. }
  split; [exact H|].
  exact (fit_keeps_first_minimum __init__ H).
Defined.
